(** * Steady-state sweep script (main.py): shallow embedding and properties

    The script drives a COPASI model through [basico] and shapes its results
    with [pandas].  Both libraries are external: the model facade is an
    interface (a type class), and the handful of [pandas] operations the
    script calls are modelled on small explicit frames.  The script's own
    control flow (the two prompt loops, the sweep, the parameter reshaping
    and the top-level statements) is embedded function by function. *)

From Stdlib Require Import ZArith Ascii String.
From stdpp Require Import base option list strings gmap.

Local Open Scope string_scope.
Local Open Scope list_scope.

(** ** Python exceptions and fallible results *)

Inductive exn :=
  | ValueError
  | KeyError
  | IndexError
  | InvalidIndexError
  | EOFError.

#[global] Instance exn_eq_dec : EqDecision exn.
Proof. solve_decision. Defined.

Inductive res (A : Type) :=
  | Ok (a : A)
  | Raise (e : exn).
Arguments Ok {A} a.
Arguments Raise {A} e.

#[global] Instance res_ret : MRet res := fun _ a => Ok a.
#[global] Instance res_bind : MBind res := fun _ _ f r =>
  match r with
  | Ok a => f a
  | Raise e => Raise e
  end.

(** ** [str.lower()] on the ASCII range *)

Definition lower_ascii (c : ascii) : ascii :=
  let n := nat_of_ascii c in
  if (65 <=? n)%nat && (n <=? 90)%nat then ascii_of_nat (n + 32) else c.

Fixpoint lower (s : string) : string :=
  match s with
  | EmptyString => EmptyString
  | String c s' => String (lower_ascii c) (lower s')
  end.

(** ** Frames

    [float] is Python's float; the script never computes with it, so it is
    kept abstract.  A [value] is what a cell or an axis label can hold.

    The operations are those of the [pandas] the script is written for
    (1.x, where [DataFrame.append] exists).  Both [append] and [concat]
    take the union of the labels of the other axis, in order of first
    appearance, fill the cells that have no source with NaN, and raise
    [InvalidIndexError] when a frame that has to be re-laid carries a
    repeated label on that axis. *)

Section Frames.
Context {float : Type} `{!EqDecision float}.

Inductive value :=
  | VNaN
  | VFloat (x : float)
  | VInt (z : Z)
  | VStr (s : string).

#[global] Instance value_eq_dec : EqDecision value.
Proof. solve_decision. Defined.

(** A frame: column labels, and rows of (index label, cells). *)
Record DataFrame := mkDF {
  columns : list value;
  rows : list (value * list value)
}.

#[global] Instance DataFrame_eq_dec : EqDecision DataFrame.
Proof. solve_decision. Defined.

Definition index (df : DataFrame) : list value := (rows df).*1.

Definition cell_at (r : list value) (j : nat) : value := default VNaN (r !! j).

(** Positions, counted from [k], of the labels that satisfy [p]. *)
Fixpoint positions_where (p : value → bool) (k : nat) (cols : list value)
  : list nat :=
  match cols with
  | [] => []
  | x :: cols' =>
      if p x then k :: positions_where p (S k) cols'
      else positions_where p (S k) cols'
  end.

(** Positions of the columns carrying label [c] (a label may repeat). *)
Definition positions (c : value) (cols : list value) : list nat :=
  positions_where (fun x => bool_decide (x = c)) 0 cols.

(** The first position of [c], [list.index(c)]. *)
Definition first_position (c : value) (cols : list value) : option nat :=
  head (positions c cols).

Definition take_columns (js : list nat) (df : DataFrame) : DataFrame :=
  mkDF (map (cell_at (columns df)) js)
       (map (fun '(i, r) => (i, map (cell_at r) js)) (rows df)).

(** [pd.DataFrame(columns=cols)] *)
Definition empty_frame (cols : list value) : DataFrame := mkDF cols [].

(** [df[keys]] with a list of keys: [KeyError] on a missing label. *)
Definition getitem_list (keys : list value) (df : DataFrame) : res DataFrame :=
  if forallb (fun k => bool_decide (k ∈ columns df)) keys
  then Ok (take_columns (concat (map (fun k => positions k (columns df)) keys)) df)
  else Raise KeyError.

(** [df.T] *)
Definition transpose (df : DataFrame) : DataFrame :=
  mkDF (index df)
       (imap (fun j c => (c, map (fun ir => cell_at ir.2 j) (rows df))) (columns df)).

(** [df[c] = vs], one value per row: overwrite the column(s) labelled [c],
    or add the column at the end. *)
Definition setitem (c : value) (vs : list value) (df : DataFrame) : DataFrame :=
  if decide (c ∈ columns df)
  then mkDF (columns df)
         (zip_with (fun v '(i, r) =>
                      (i, imap (fun j x => if decide (columns df !! j = Some c)
                                           then v else x) r))
                   vs (rows df))
  else mkDF (columns df ++ [c])
         (zip_with (fun v '(i, r) => (i, r ++ [v])) vs (rows df)).

(** [df[c] = v] with a scalar: the value is repeated on every row. *)
Definition setitem_scalar (c v : value) (df : DataFrame) : DataFrame :=
  setitem c (replicate (length (rows df)) v) df.

(** [df.reset_index(drop=True)] *)
Definition reset_index_drop (df : DataFrame) : DataFrame :=
  mkDF (columns df) (imap (fun i ir => (VInt (Z.of_nat i), ir.2)) (rows df)).

(** [df.drop(columns=ks)] *)
Definition drop_columns (ks : list value) (df : DataFrame) : res DataFrame :=
  if forallb (fun k => bool_decide (k ∈ columns df)) ks
  then Ok (take_columns
             (positions_where (fun x => bool_decide (x ∉ ks)) 0 (columns df)) df)
  else Raise KeyError.

(** [df.columns = df.iloc[0]] *)
Definition columns_from_first_row (df : DataFrame) : res DataFrame :=
  match rows df with
  | [] => Raise IndexError
  | (_, r) :: _ =>
      if decide (length r = length (columns df))
      then Ok (mkDF r (rows df))
      else Raise ValueError
  end.

(** [df.iloc[1:]] *)
Definition iloc_from_1 (df : DataFrame) : DataFrame :=
  mkDF (columns df) (tail (rows df)).

(** Labels of several axes combined: the axis itself when they agree,
    otherwise the distinct labels in order of first appearance. *)
Fixpoint unique (l : list value) : list value :=
  match l with
  | [] => []
  | x :: l' => x :: filter (fun y => y ≠ x) (unique l')
  end.

Definition union_labels (a b : list value) : list value :=
  if decide (a = b) then a else unique (a ++ b).

(** Cells of one row re-laid on new column labels. *)
Definition reindex_cells (old new : list value) (r : list value) : list value :=
  map (fun c => match first_position c old with
                | Some j => cell_at r j
                | None => VNaN
                end) new.

(** A frame re-laid on the combined column labels; [pandas] refuses to
    reindex an axis that carries a repeated label. *)
Definition align_columns (new : list value) (df : DataFrame)
  : res (list (value * list value)) :=
  if decide (columns df = new) then Ok (rows df)
  else if bool_decide (NoDup (columns df))
       then Ok (map (fun '(i, r) => (i, reindex_cells (columns df) new r)) (rows df))
       else Raise InvalidIndexError.

(** [df.append(other)]: rows of [df], then rows of [other], on the union
    of the columns. *)
Definition append (df other : DataFrame) : res DataFrame :=
  let cols := union_labels (columns df) (columns other) in
  ra ← align_columns cols df;
  rb ← align_columns cols other;
  Ok (mkDF cols (ra ++ rb)).

Definition row_of (i : value) (df : DataFrame) : list value :=
  match list_find (fun ir => ir.1 = i) (rows df) with
  | Some (_, ir) => ir.2
  | None => replicate (length (columns df)) VNaN
  end.

(** A frame re-laid on the combined index. *)
Definition align_index (new : list value) (df : DataFrame) : res (list (list value)) :=
  if decide (index df = new) then Ok ((rows df).*2)
  else if bool_decide (NoDup (index df))
       then Ok (map (fun i => row_of i df) new)
       else Raise InvalidIndexError.

(** [pd.concat([a, b], axis=1)]: columns of [a], then columns of [b], on
    the union of the two indexes; cells without a source row are NaN. *)
Definition concat_axis1 (a b : DataFrame) : res DataFrame :=
  let idx := union_labels (index a) (index b) in
  ca ← align_index idx a;
  cb ← align_index idx b;
  Ok (mkDF (columns a ++ columns b)
           (zip_with (fun i '(ra, rb) => (i, ra ++ rb)) idx (zip ca cb))).

End Frames.

Arguments value : clear implicits.
Arguments DataFrame : clear implicits.

(** ** The model facade ([basico]) and the process state *)

(** The calls the script makes on the one loaded COPASI model.  The solver's
    status is not looked at by the script, so [run_steadystate] is only a
    change of model state; what a solve left behind shows in the frame
    [get_species] returns. *)
Class Facade (float M : Type) := {
  get_species : M → DataFrame float;
  get_reaction_parameters : M → DataFrame float;
  set_species : string → float → M → M;
  set_reaction_parameters : string → float → M → M;
  run_steadystate : M → M
}.

Section Script.
Context {float : Type} `{!EqDecision float}.
Context {M : Type} `{!Facade float M}.

(** [float(s)] on a string: [None] stands for [ValueError]. *)
Variable parse_float : string → option float.

Abbreviation value := (value float).
Abbreviation DataFrame := (DataFrame float).

(** A sweep value, [float or str] as [set_init_conc] documents it. *)
Inductive conc :=
  | CFloat (x : float)
  | CStr (s : string).

Definition conc_value (c : conc) : value :=
  match c with
  | CFloat x => VFloat x
  | CStr s => VStr s
  end.

Inductive call :=
  | CallGetSpecies
  | CallGetReactionParameters
  | CallSetSpecies (name : string) (x : float)
  | CallSetReactionParameters (name : string) (x : float)
  | CallRunSteadystate.

(** What [print] is called with: a fixed line, the names after
    [Possible species are:], the rejection of a species name, the current
    selection, a printed frame, the rejection of a parameter name, the name
    being changed, the retry after a malformed number, the two skips of the
    sweep, and the closing line. *)
Inductive message :=
  | MsgText (s : string)
  | MsgPossible (names : list value)
  | MsgNotSpecies
  | MsgCurrentList (l : list string)
  | MsgFrame (df : DataFrame)
  | MsgNotRate
  | MsgChanging (name : string)
  | MsgInvalidFloat
  | MsgSkipConversion (c : conc)
  | MsgSkipRead (c : conc)
  | MsgCsvGenerated.

(** The process state besides standard input: the loaded model, the calls
    made on it so far, and what was printed so far. *)
Record world := World {
  model : M;
  calls : list call;
  stdout : list message
}.

Definition print (msg : message) (w : world) : world :=
  World (model w) (calls w) (stdout w ++ [msg]).

Definition call_get_species (w : world) : DataFrame * world :=
  (get_species (model w),
   World (model w) (calls w ++ [CallGetSpecies]) (stdout w)).

Definition call_get_reaction_parameters (w : world) : DataFrame * world :=
  (get_reaction_parameters (model w),
   World (model w) (calls w ++ [CallGetReactionParameters]) (stdout w)).

Definition call_set_species (name : string) (x : float) (w : world) : world :=
  World (set_species name x (model w))
        (calls w ++ [CallSetSpecies name x]) (stdout w).

Definition call_set_reaction_parameters (name : string) (x : float) (w : world) : world :=
  World (set_reaction_parameters name x (model w))
        (calls w ++ [CallSetReactionParameters name x]) (stdout w).

Definition call_run_steadystate (w : world) : world :=
  World (run_steadystate (model w))
        (calls w ++ [CallRunSteadystate]) (stdout w).

(** ** [cli_initial_conc]

    Standard input is the list of lines still to be read; [input()] on an
    exhausted input raises [EOFError]. *)

Fixpoint species_loop (list_of_species_names : list value)
    (list_of_species_init_conc : list string)
    (inp : list string) (w : world)
  : res (list string * list string * world) :=
  match inp with
  | [] => Raise EOFError
  | species_name_input :: inp' =>
      if decide (lower species_name_input = "done")
      then Ok (list_of_species_init_conc, inp', w)
      else if decide (VStr species_name_input ∉ list_of_species_names)
      then species_loop list_of_species_names list_of_species_init_conc inp'
             (print MsgNotSpecies w)
      else
        let l := list_of_species_init_conc ++ [species_name_input] in
        species_loop list_of_species_names l inp' (print (MsgCurrentList l) w)
  end.

Definition cli_initial_conc (species_df : DataFrame)
    (list_of_species_names : list value) (inp : list string) (w : world)
  : res (list string * list string * world) :=
  let w := print (MsgText "Please select the species for defined initial concentrations regarding to the input.xls excel file") w in
  let w := print (MsgText "Method default for non selected species -> see COPASI .cps method file") w in
  let w := print (MsgPossible (index species_df)) w in
  let w := print (MsgText "Type 'done' to proceed with the selection.") w in
  species_loop list_of_species_names [] inp w.

(** ** [cli_set_rates] *)

Fixpoint rates_loop (list_of_rates : list value) (inp : list string) (w : world)
  : res (list string * world) :=
  match inp with
  | [] => Raise EOFError
  | parameter_name :: inp' =>
      if decide (lower parameter_name = "done") then Ok (inp', w)
      else if decide (VStr parameter_name ∉ list_of_rates)
      then rates_loop list_of_rates inp' (print MsgNotRate w)
      else
        (fix numeric_entry (inp : list string) (w : world) {struct inp}
           : res (list string * world) :=
           match inp with
           | [] => Raise EOFError
           | line :: inp' =>
               match parse_float line with
               | Some rate_value =>
                   rates_loop list_of_rates inp'
                     (call_set_reaction_parameters parameter_name rate_value w)
               | None => numeric_entry inp' (print MsgInvalidFloat w)
               end
           end) inp' (print (MsgChanging parameter_name) w)
  end.

(** The inner loop of [rates_loop], named: the numeric entry for
    [parameter_name], then back to the outer loop. *)
Definition numeric_entry (list_of_rates : list value) (parameter_name : string)
  : list string → world → res (list string * world) :=
  fix numeric_entry (inp : list string) (w : world) {struct inp} :=
    match inp with
    | [] => Raise EOFError
    | line :: inp' =>
        match parse_float line with
        | Some rate_value =>
            rates_loop list_of_rates inp'
              (call_set_reaction_parameters parameter_name rate_value w)
        | None => numeric_entry inp' (print MsgInvalidFloat w)
        end
    end.

Definition cli_set_rates (inp : list string) (w : world) : res (list string * world) :=
  let '(parameters_df, w) := call_get_reaction_parameters w in
  let list_of_rates := index parameters_df in
  let w := print (MsgText "---------------------------------------------------") w in
  let w := print (MsgFrame parameters_df) w in
  let w := print (MsgText "---------------------------------------------------") w in
  let w := print (MsgText "Above you see the reaction parameters that you can change.") w in
  let w := print (MsgText "Choose the name of the rate parameter you want to change and then type in the value as floating point number") w in
  let w := print (MsgText "---------------------------------------------------") w in
  let w := print (MsgText "!!! Type 'done' to proceed with the selection. !!!!") w in
  let w := print (MsgText "---------------------------------------------------") w in
  let w := print (MsgPossible (index parameters_df)) w in
  '(inp, w) ← rates_loop list_of_rates inp w;
  let '(parameters_df_new, w) := call_get_reaction_parameters w in
  let w := print (MsgText "Summary of updated reaction rates:") w in
  let w := print (MsgFrame parameters_df_new) w in
  let w := print (MsgText "---------------------------------------------------") w in
  Ok (inp, w).

(** ** [set_init_conc] and [analyze_steady_states] *)

(** [float(concentration)] *)
Definition coerce_float (c : conc) : res float :=
  match c with
  | CFloat x => Ok x
  | CStr s =>
      match parse_float s with
      | Some x => Ok x
      | None => Raise ValueError
      end
  end.

(** [try: r except e: h] *)
Definition try_except {A} (r : res A) (e : exn) (h : res A) : res A :=
  match r with
  | Ok a => Ok a
  | Raise e' => if decide (e' = e) then h else Raise e'
  end.

Definition set_init_conc (list_of_species_init_conc : list string)
    (concentration : conc) (w : world) : res world :=
  concentration ← try_except (coerce_float concentration) ValueError
                     (Raise ValueError);
  Ok (foldl (fun w spec => call_set_species spec concentration w)
            w list_of_species_init_conc).

Fixpoint analyze_steady_states (conc_list_from_excel : list conc)
    (list_of_species_init_conc : list string)
    (steady_state_analysis_df : DataFrame) (w : world)
  : res (DataFrame * world) :=
  match conc_list_from_excel with
  | [] => Ok (steady_state_analysis_df, w)
  | concentration :: rest =>
      match set_init_conc list_of_species_init_conc concentration w with
      | Raise ValueError =>
          analyze_steady_states rest list_of_species_init_conc
            steady_state_analysis_df (print (MsgSkipConversion concentration) w)
      | Raise e => Raise e
      | Ok w =>
          let w := call_run_steadystate w in
          let '(species_df, w) := call_get_species w in
          match getitem_list [VStr "concentration"] species_df with
          | Raise KeyError =>
              analyze_steady_states rest list_of_species_init_conc
                steady_state_analysis_df (print (MsgSkipRead concentration) w)
          | Raise e => Raise e
          | Ok steady_state_data =>
              let new_data := transpose steady_state_data in
              let new_data :=
                setitem_scalar (VStr "IP_tot") (conc_value concentration) new_data in
              match append steady_state_analysis_df new_data with
              | Raise e => Raise e
              | Ok steady_state_analysis_df =>
                  analyze_steady_states rest list_of_species_init_conc
                    steady_state_analysis_df w
              end
          end
      end
  end.

(** ** [handle_parameters_df] *)

(** [cols.insert(0, cols.pop(cols.index(c)))] *)
Definition move_to_front (c : value) (cols : list value) : res (list value) :=
  match first_position c cols with
  | None => Raise ValueError
  | Some j => Ok (c :: delete j cols)
  end.

Definition handle_parameters_df (w : world) : res (DataFrame * world) :=
  let '(parameters_df, w) := call_get_reaction_parameters w in
  let parameters_df := setitem (VStr "rates") (index parameters_df) parameters_df in
  let parameters_df := reset_index_drop parameters_df in
  parameter_cols ← move_to_front (VStr "rates") (columns parameters_df);
  parameters_df ← getitem_list parameter_cols parameters_df;
  parameters_df ← drop_columns [VStr "type"; VStr "mapped_to"; VStr "reaction"]
                    parameters_df;
  let parameters_df := transpose parameters_df in
  parameters_df ← columns_from_first_row parameters_df;
  let parameters_df := reset_index_drop (iloc_from_1 parameters_df) in
  Ok (parameters_df, w).

(** ** The top-level statements

    [conc_list_from_excel] is what [read_excel_file] returned and the model
    in [w] is what [load_model] loaded.  The frame returned is the one
    handed to [to_csv]. *)

(** Line 226, for whatever [steady_state_analysis_df] holds at that point. *)
Definition assemble (steady_state_analysis_df : DataFrame) (w : world)
  : res (DataFrame * world) :=
  '(parameters_df, w) ← handle_parameters_df w;
  df ← concat_axis1 steady_state_analysis_df parameters_df;
  Ok (df, w).

(** Lines 70 to 77: the empty result frame and the species selection. *)
Definition select_species (inp : list string) (w : world)
  : res (DataFrame * list string * list string * world) :=
  let '(species_df, w) := call_get_species w in
  let list_of_species_names := index species_df in
  let list_of_species_names := VStr "name" :: list_of_species_names in
  let steady_state_analysis_df := empty_frame list_of_species_names in
  '(list_of_species_init_conc, inp, w) ←
    cli_initial_conc species_df list_of_species_names inp w;
  Ok (steady_state_analysis_df, list_of_species_init_conc, inp, w).

Definition main (conc_list_from_excel : list conc) (inp : list string) (w : world)
  : res (DataFrame * list string * world) :=
  '(steady_state_analysis_df, list_of_species_init_conc, inp, w) ←
    select_species inp w;
  '(inp, w) ← cli_set_rates inp w;
  '(steady_state_analysis_df, w) ← assemble steady_state_analysis_df w;
  Ok (steady_state_analysis_df, inp, print MsgCsvGenerated w).

End Script.

Arguments conc : clear implicits.
Arguments call : clear implicits.
Arguments message : clear implicits.
Arguments world : clear implicits.

(** ** Notions used to state the properties *)

Section Observations.
Context {float : Type} `{!EqDecision float}.
Context {M : Type} `{!Facade float M}.

Abbreviation value := (value float).
Abbreviation DataFrame := (DataFrame float).
Abbreviation world := (world float M).
Abbreviation conc := (conc float).

(** What the species loop prints for the tokens [toks], starting from the
    selection [acc]. *)
Fixpoint species_messages (names : list value) (acc : list string)
    (toks : list string) : list (message float) :=
  match toks with
  | [] => []
  | t :: toks' =>
      if decide (VStr t ∈ names)
      then MsgCurrentList (acc ++ [t]) :: species_messages names (acc ++ [t]) toks'
      else MsgNotSpecies :: species_messages names acc toks'
  end.

(** The calls that belong to the sweep. *)
Definition sweep_call (c : call float) : Prop :=
  match c with
  | CallSetSpecies _ _ | CallRunSteadystate => True
  | _ => False
  end.

(** [w'] comes after [w] and no sweep call was made in between. *)
Definition extends_without_sweep (w w' : world) : Prop :=
  ∃ cs, calls w' = calls w ++ cs ∧ Forall (fun c => ¬ sweep_call c) cs.

(** The loop of [set_init_conc]: the value set on every selected species. *)
Definition apply_concentration (sel : list string) (x : float) (w : world) : world :=
  foldl (fun w spec => call_set_species spec x w) w sel.

(** The world after the set, the solve and the read of one iteration. *)
Definition solved (sel : list string) (x : float) (w : world) : world :=
  (call_get_species (call_run_steadystate (apply_concentration sel x w))).2.

(** The row one successful iteration hands to [append]. *)
Definition new_row (c : conc) (steady_state_data : DataFrame) : DataFrame :=
  setitem_scalar (VStr "IP_tot") (conc_value c) (transpose steady_state_data).

(** Two worlds with the same model and the same calls, the first with
    [d] more lines printed. *)
Definition ahead_by (d : nat) (w1 w2 : world) : Prop :=
  model w1 = model w2 ∧ calls w1 = calls w2
  ∧ length (stdout w1) = (d + length (stdout w2))%nat.

(** Two runs of the sweep that end alike: the same exception, or the same
    table, model and calls, the first with [d] more lines printed. *)
Definition same_sweep (d : nat) (r1 r2 : res (DataFrame * world)) : Prop :=
  match r1, r2 with
  | Ok (t1, w1), Ok (t2, w2) => t1 = t2 ∧ ahead_by d w1 w2
  | Raise e1, Raise e2 => e1 = e2
  | _, _ => False
  end.

(** The cells of the first column labelled [c], top to bottom. *)
Definition column_values (c : value) (df : DataFrame) : list value :=
  match first_position c (columns df) with
  | Some j => map (fun ir => cell_at ir.2 j) (rows df)
  | None => []
  end.

(** The frame [basico] returns for the reaction parameters: one row per
    parameter, labelled by its name, under the four columns the script
    relies on. *)
Definition basico_parameters (df : DataFrame) : Prop :=
  columns df = [VStr "value"; VStr "reaction"; VStr "type"; VStr "mapped_to"]
  ∧ Forall (fun ir => length ir.2 = 4%nat) (rows df).

(** Names and values of the reaction parameters of a model, and the
    one-row frame that holds the values under the names. *)
Definition parameter_names (m : M) : list value :=
  index (get_reaction_parameters m).

Definition parameter_values (m : M) : list value :=
  map (fun ir => cell_at ir.2 0) (rows (get_reaction_parameters m)).

Definition snapshot (m : M) : DataFrame :=
  mkDF (parameter_names m) [(VInt 0, parameter_values m)].

(** A row block with the snapshot beside it, as [concat] lays them out
    when no row of the block is labelled [0]: the block's rows padded with
    NaN, then the snapshot row. *)
Definition beside_snapshot (block : DataFrame) (m : M) : DataFrame :=
  mkDF (columns block ++ parameter_names m)
       (map (fun ir => (ir.1, ir.2 ++ replicate (length (parameter_names m)) VNaN))
            (rows block)
        ++ [(VInt 0, replicate (length (columns block)) VNaN ++ parameter_values m)]).

(** [float(s)] on a string, as in the script. *)
Variable parse_float : string → option float.

(** The table the sweep is meant to build, said directly: one pair per
    value that yields a row, holding the [concentration] column read
    after the solve and the swept value. *)
Fixpoint sweep_rows (concs : list conc) (sel : list string) (m : M)
  : list (list value * value) :=
  match concs with
  | [] => []
  | c :: rest =>
      match coerce_float parse_float c with
      | Raise _ => sweep_rows rest sel m
      | Ok x =>
          let m' := run_steadystate
                      (foldl (fun m spec => set_species spec x m) m sel) in
          if bool_decide (VStr "concentration" ∈ columns (get_species m'))
          then (column_values (VStr "concentration") (get_species m'),
                conc_value c) :: sweep_rows rest sel m'
          else sweep_rows rest sel m'
      end
  end.

(** The frame holding such rows: the empty frame of line 74 while there
    is none, afterwards the columns [name], the species, [IP_tot], every
    row labelled [concentration] with NaN under [name]. *)
Definition sweep_table (species : list value) (rs : list (list value * value))
  : DataFrame :=
  match rs with
  | [] => empty_frame (VStr "name" :: species)
  | _ => mkDF (VStr "name" :: species ++ [VStr "IP_tot"])
              (map (fun r => (VStr "concentration", VNaN :: r.1 ++ [r.2])) rs)
  end.

(** One iteration, by cases: a conversion skip, a read skip, a row, or
    the exception of [append]. *)
Inductive iteration (c : conc) (sel : list string) (df : DataFrame) (w : world)
  : Prop :=
  | SkipConversion :
      coerce_float parse_float c = Raise ValueError → iteration c sel df w
  | SkipRead (x : float) :
      coerce_float parse_float c = Ok x →
      getitem_list [VStr "concentration"] (get_species (model (solved sel x w)))
        = Raise KeyError →
      iteration c sel df w
  | Row (x : float) (data df' : DataFrame) :
      coerce_float parse_float c = Ok x →
      getitem_list [VStr "concentration"] (get_species (model (solved sel x w)))
        = Ok data →
      append df (new_row c data) = Ok df' →
      iteration c sel df w
  | AppendRaises (x : float) (data : DataFrame) :
      coerce_float parse_float c = Ok x →
      getitem_list [VStr "concentration"] (get_species (model (solved sel x w)))
        = Ok data →
      append df (new_row c data) = Raise InvalidIndexError →
      iteration c sel df w.

End Observations.

Arguments iteration {float _ M _} parse_float c sel df w.
Arguments sweep_rows {float _ M _} parse_float concs sel m.

(** ** A small concrete model

    Floats are read as integers here, [float(s)] accepts the strings of
    decimal digits, and the solve leaves a usable result exactly when no
    initial concentration is negative: a frame without the [concentration]
    column stands for a model that reports no result. *)

Module Toy.

Definition digit_of (c : ascii) : option Z :=
  let n := nat_of_ascii c in
  if (48 <=? n)%nat && (n <=? 57)%nat then Some (Z.of_nat (n - 48)) else None.

Fixpoint parse_digits (acc : Z) (s : string) : option Z :=
  match s with
  | EmptyString => Some acc
  | String c s' =>
      match digit_of c with
      | Some d => parse_digits (10 * acc + d) s'
      | None => None
      end
  end.

Definition parse_float (s : string) : option Z :=
  match s with
  | EmptyString => None
  | _ => parse_digits 0 s
  end.

Record toy := mkToy {
  toy_species : list (string * Z);
  toy_parameters : list (string * Z);
  toy_usable : bool
}.

Definition toy_get_species (m : toy) : DataFrame Z :=
  if toy_usable m
  then mkDF [VStr "initial_concentration"; VStr "concentration"]
            (map (fun '(n, x) => (VStr n, [VFloat x; VFloat x])) (toy_species m))
  else mkDF [VStr "initial_concentration"]
            (map (fun '(n, x) => (VStr n, [VFloat x])) (toy_species m)).

Definition toy_get_reaction_parameters (m : toy) : DataFrame Z :=
  mkDF [VStr "value"; VStr "reaction"; VStr "type"; VStr "mapped_to"]
       (map (fun '(n, x) => (VStr n, [VFloat x; VStr "R1"; VStr "local"; VNaN]))
            (toy_parameters m)).

Definition update (name : string) (x : Z) (l : list (string * Z)) : list (string * Z) :=
  map (fun '(n, y) => if decide (n = name) then (n, x) else (n, y)) l.

#[global] Instance toy_facade : Facade Z toy := {
  get_species := toy_get_species;
  get_reaction_parameters := toy_get_reaction_parameters;
  set_species name x m :=
    mkToy (update name x (toy_species m)) (toy_parameters m) (toy_usable m);
  set_reaction_parameters name x m :=
    mkToy (toy_species m) (update name x (toy_parameters m)) (toy_usable m);
  run_steadystate m :=
    mkToy (toy_species m) (toy_parameters m)
          (forallb (fun '(_, x) => (0 <=? x)%Z) (toy_species m))
}.

Definition model0 : toy :=
  mkToy [("A", 1%Z); ("B", 2%Z)] [("k1", 5%Z); ("k2", 7%Z)] true.

Definition world0 : world Z toy := World model0 [] [].

End Toy.

(** ** [read_excel_file]

    The reader [pd.read_excel] is external: the function is given the frame
    it returns, as far as [df_excel[0]] looks at it.  Formatting to eight
    decimals, [float] of an integer and [str.strip] are Python's own and are
    kept abstract. *)

Section Ingestion.
Context {float : Type}.

(** [float(s)] on a string, [f"{x:.8f}"], [float(n)] on an integer, and
    [s.strip()]. *)
Variable parse_float : string → option float.
Variable format8 : float → string.
Variable float_of_int : Z → float.
Variable strip : string → string.

(** A cell of the column: a float (NaN for a blank cell), an integer, a
    text, or another object such as a date. *)
Inductive sheet_cell :=
  | SFloat (x : float)
  | SInt (n : Z)
  | SStr (s : string)
  | SOther.

(** An element of [formatted_excel_list]: a string, or the other object
    left as it was. *)
Inductive formatted :=
  | FStr (s : string)
  | FOther.

(** The frame [pd.read_excel(file_path, usecols=[0], header=None)]
    returns, seen through [df_excel[0]]: the cells of the column labelled
    [0], top to bottom, or no such column, as for a sheet without any
    cell. *)
Definition excel_frame := option (list sheet_cell).

Inductive sheet_error :=
  | SheetKeyError
  | SheetIndexError
  | SheetAttributeError
  | SheetValueError
  | SheetTypeError.

(** [f"{float(value):.8f}" if isinstance(value, (float, int)) else value] *)
Definition format_cell (value : sheet_cell) : formatted :=
  match value with
  | SFloat x => FStr (format8 x)
  | SInt n => FStr (format8 (float_of_int n))
  | SStr s => FStr s
  | SOther => FOther
  end.

(** [float(value)] on an element of the formatted list. *)
Definition float_of_formatted (value : formatted) : sheet_error + float :=
  match value with
  | FStr s =>
      match parse_float s with
      | Some x => inr x
      | None => inl SheetValueError
      end
  | FOther => inl SheetTypeError
  end.

(** [[float(value) for value in l]]: the first failure is raised. *)
Fixpoint floats_of (l : list formatted) : sheet_error + list float :=
  match l with
  | [] => inr []
  | value :: l' =>
      match float_of_formatted value with
      | inl e => inl e
      | inr x =>
          match floats_of l' with
          | inl e => inl e
          | inr xs => inr (x :: xs)
          end
      end
  end.

(** [df_excel[0].tolist()]: [KeyError] when the frame has no column
    labelled [0]. *)
Definition column_0 (df_excel : excel_frame) : sheet_error + list sheet_cell :=
  match df_excel with
  | Some cells => inr cells
  | None => inl SheetKeyError
  end.

Definition read_excel_file (df_excel : excel_frame)
  : sheet_error + (list float * string) :=
  match column_0 df_excel with
  | inl e => inl e
  | inr excel_column_a_list =>
      let formatted_excel_list := map format_cell excel_column_a_list in
      match formatted_excel_list with
      | [] => inl SheetIndexError
      | FOther :: _ => inl SheetAttributeError
      | FStr s :: formatted_excel_list =>
          let formatted_excel_list_name := strip s in
          match floats_of formatted_excel_list with
          | inl e => inl e
          | inr conc_list_from_excel =>
              inr (conc_list_from_excel, formatted_excel_list_name)
          end
      end
  end.

End Ingestion.

Arguments sheet_cell : clear implicits.
Arguments excel_frame : clear implicits.

(** ** Further notions used to state the properties *)

Section Traces.
Context {float : Type} `{!EqDecision float}.
Context {M : Type} `{!Facade float M}.
Variable parse_float : string → option float.

(** The calls a sweep of [concs] makes: for each value that converts, one
    [set_species] per entry of the selection, then the solve, then the
    read; nothing for a value that does not convert. *)
Fixpoint sweep_calls (concs : list (conc float)) (sel : list string)
  : list (call float) :=
  match concs with
  | [] => []
  | c :: rest =>
      match coerce_float parse_float c with
      | Ok x =>
          map (fun spec => CallSetSpecies spec x) sel
          ++ [CallRunSteadystate; CallGetSpecies] ++ sweep_calls rest sel
      | Raise _ => sweep_calls rest sel
      end
  end.

(** A call that overrides a parameter named in [rates] with the value of a
    line of [inp]. *)
Definition override_from (rates : list (value float)) (inp : list string)
    (c : call float) : Prop :=
  match c with
  | CallSetReactionParameters name x =>
      VStr name ∈ rates ∧ ∃ line, line ∈ inp ∧ parse_float line = Some x
  | _ => False
  end.

(** Two runs that end alike up to what was printed and logged: the same
    exception, or the same result and the same model. *)
Definition same_outcome {A : Type} (r1 r2 : res (A * world float M)) : Prop :=
  match r1, r2 with
  | Ok (a1, w1), Ok (a2, w2) => a1 = a2 ∧ model w1 = model w2
  | Raise e1, Raise e2 => e1 = e2
  | _, _ => False
  end.

End Traces.

Arguments sweep_calls {float} parse_float concs sel.
Arguments override_from {float} parse_float rates inp c.

(** ** A small concrete sheet

    Floats are read as integers again; eight-decimal formatting is taken
    to print the integer in decimal digits. *)

Module ToySheet.

Fixpoint digits (fuel n : nat) (acc : string) : string :=
  match fuel with
  | O => acc
  | S fuel' =>
      let acc' := String (ascii_of_nat (48 + n mod 10)) acc in
      if (n <? 10)%nat then acc' else digits fuel' (n / 10) acc'
  end.

Definition format8 (z : Z) : string :=
  digits (S (Z.to_nat z)) (Z.to_nat z) EmptyString.

Definition float_of_int (n : Z) : Z := n.

(** Blanks are taken off the front only, enough for the labels used here. *)
Fixpoint strip (s : string) : string :=
  match s with
  | String " " s' => strip s'
  | _ => s
  end.

Definition read := read_excel_file Toy.parse_float format8 float_of_int strip.

End ToySheet.

(** ** A model with a bare parameter frame

    Its parameter frame has the [value] column only, as a frame built
    without the reaction, type and mapping columns has. *)

Module Bare.

Record bare := mkBare {
  bare_parameters : list (string * Z)
}.

Definition bare_facade : Facade Z bare := {|
  get_species := fun _ =>
    mkDF [VStr "initial_concentration"; VStr "concentration"] [];
  get_reaction_parameters := fun m =>
    mkDF [VStr "value"]
         (map (fun '(n, x) => (VStr n, [VFloat x])) (bare_parameters m));
  set_species := fun _ _ m => m;
  set_reaction_parameters := fun name x m =>
    mkBare (Toy.update name x (bare_parameters m));
  run_steadystate := fun m => m
|}.

Definition world0 : world Z bare := World (mkBare [("k1", 5%Z)]) [] [].

End Bare.

(** * Properties *)

(** ** The sentinel test *)

Lemma lower_ascii_d c : lower_ascii c = "d"%char → c = "d"%char ∨ c = "D"%char.
Proof.
  destruct c as [[] [] [] [] [] [] [] []]; vm_compute; intros H;
    first [discriminate H | by left | by right].
Qed.

Lemma lower_ascii_o c : lower_ascii c = "o"%char → c = "o"%char ∨ c = "O"%char.
Proof.
  destruct c as [[] [] [] [] [] [] [] []]; vm_compute; intros H;
    first [discriminate H | by left | by right].
Qed.

Lemma lower_ascii_n c : lower_ascii c = "n"%char → c = "n"%char ∨ c = "N"%char.
Proof.
  destruct c as [[] [] [] [] [] [] [] []]; vm_compute; intros H;
    first [discriminate H | by left | by right].
Qed.

Lemma lower_ascii_e c : lower_ascii c = "e"%char → c = "e"%char ∨ c = "E"%char.
Proof.
  destruct c as [[] [] [] [] [] [] [] []]; vm_compute; intros H;
    first [discriminate H | by left | by right].
Qed.

(** The tokens both loops take for the sentinel are the sixteen casings of
    [done], and nothing else. *)
Lemma lower_done_iff (s : string) :
  lower s = "done" ↔
  s ∈ ["done"; "donE"; "doNe"; "doNE"; "dOne"; "dOnE"; "dONe"; "dONE";
       "Done"; "DonE"; "DoNe"; "DoNE"; "DOne"; "DOnE"; "DONe"; "DONE"].
Proof.
  split.
  - destruct s as [|c1 [|c2 [|c3 [|c4 [|c5 s]]]]]; simpl; try discriminate.
    intros H. injection H as H1 H2 H3 H4.
    apply lower_ascii_d in H1. apply lower_ascii_o in H2.
    apply lower_ascii_n in H3. apply lower_ascii_e in H4.
    destruct H1, H2, H3, H4; subst; repeat constructor.
  - rewrite !elem_of_cons, elem_of_nil.
    intros H. repeat destruct H as [->|H]; try reflexivity. destruct H.
Qed.

Section LoopFacts.
Context {float : Type} `{!EqDecision float}.
Context {M : Type} `{!Facade float M}.
Variable parse_float : string → option float.

Abbreviation value := (value float).
Abbreviation world := (world float M).

Lemma species_loop_tokens (names : list value) (toks : list string) :
  ∀ (acc : list string) (d : string) (rest : list string) (w : world),
    Forall (fun t => lower t ≠ "done") toks →
    lower d = "done" →
    species_loop names acc (toks ++ d :: rest) w
    = Ok (acc ++ filter (fun t => VStr t ∈ names) toks, rest,
          World (model w) (calls w)
                (stdout w ++ species_messages names acc toks)).
Proof.
  induction toks as [|t toks IH]; intros acc d rest w Hno Hd; simpl.
  - rewrite decide_True by done. rewrite !app_nil_r. by destruct w.
  - inversion Hno as [|?? Ht Hno']; subst.
    rewrite decide_False by done.
    destruct (decide (VStr t ∉ names)) as [Hn|Hn].
    + rewrite IH by done. rewrite filter_cons_False by done.
      rewrite decide_False by done. simpl.
      by rewrite <- app_assoc.
    + apply dec_stable in Hn.
      rewrite IH by done. rewrite filter_cons_True by done.
      rewrite decide_True by done. simpl.
      by rewrite <- !app_assoc.
Qed.

Lemma species_loop_frame (names : list value) (inp : list string) :
  ∀ acc (w : world) sel inp' w',
    species_loop names acc inp w = Ok (sel, inp', w') →
    model w' = model w ∧ calls w' = calls w.
Proof.
  induction inp as [|t inp IH]; intros acc w sel inp' w'; simpl; [done|].
  destruct (decide _); [by intros [= <- <- <-]|].
  destruct (decide _); intros Hrun; apply IH in Hrun; by destruct w.
Qed.

Lemma rates_loop_cons (rates : list value) (name : string)
    (inp : list string) (w : world) :
  rates_loop parse_float rates (name :: inp) w
  = if decide (lower name = "done") then Ok (inp, w)
    else if decide (VStr name ∉ rates)
         then rates_loop parse_float rates inp (print MsgNotRate w)
         else numeric_entry parse_float rates name inp (print (MsgChanging name) w).
Proof. reflexivity. Qed.

Lemma numeric_entry_cons (rates : list value) (name line : string)
    (inp : list string) (w : world) :
  numeric_entry parse_float rates name (line :: inp) w
  = match parse_float line with
    | Some x => rates_loop parse_float rates inp
                  (call_set_reaction_parameters name x w)
    | None => numeric_entry parse_float rates name inp (print MsgInvalidFloat w)
    end.
Proof. reflexivity. Qed.

Lemma numeric_entry_steps (rates : list value) (name : string) (bads : list string) :
  ∀ (good : string) (x : float) (rest : list string) (w : world),
    Forall (fun l => parse_float l = None) bads →
    parse_float good = Some x →
    numeric_entry parse_float rates name (bads ++ good :: rest) w
    = rates_loop parse_float rates rest
        (call_set_reaction_parameters name x
           (foldl (fun w _ => print MsgInvalidFloat w) w bads)).
Proof.
  induction bads as [|b bads IH]; intros good x rest w Hb Hg.
  - simpl app. rewrite numeric_entry_cons. by rewrite Hg.
  - inversion Hb as [|?? Hb1 Hb2]; subst.
    simpl app. rewrite numeric_entry_cons, Hb1. by apply IH.
Qed.

Lemma extends_without_sweep_refl (w : world) : extends_without_sweep w w.
Proof. exists []. by rewrite app_nil_r. Qed.

Lemma extends_without_sweep_trans (w1 w2 w3 : world) :
  extends_without_sweep w1 w2 → extends_without_sweep w2 w3 →
  extends_without_sweep w1 w3.
Proof.
  intros (c1 & H1 & F1) (c2 & H2 & F2). exists (c1 ++ c2).
  split; [by rewrite H2, H1, app_assoc|by apply Forall_app].
Qed.

Lemma extends_without_sweep_print (msg : message float) (w : world) :
  extends_without_sweep w (print msg w).
Proof. exists []. split; [simpl; by rewrite app_nil_r|constructor]. Qed.

Lemma extends_without_sweep_set_parameter (name : string) (x : float) (w : world) :
  extends_without_sweep w (call_set_reaction_parameters name x w).
Proof.
  exists [CallSetReactionParameters name x]. split; [done|].
  constructor; [by intros []|constructor].
Qed.

Lemma extends_without_sweep_get_parameters (w : world) :
  extends_without_sweep w (call_get_reaction_parameters w).2.
Proof.
  exists [CallGetReactionParameters]. split; [done|].
  constructor; [by intros []|constructor].
Qed.

Lemma extends_without_sweep_get_species (w : world) :
  extends_without_sweep w (call_get_species w).2.
Proof.
  exists [CallGetSpecies]. split; [done|].
  constructor; [by intros []|constructor].
Qed.

Lemma rates_loop_calls (rates : list value) (inp : list string) :
  (∀ (w : world) inp' w',
     rates_loop parse_float rates inp w = Ok (inp', w') →
     extends_without_sweep w w') ∧
  (∀ name (w : world) inp' w',
     numeric_entry parse_float rates name inp w = Ok (inp', w') →
     extends_without_sweep w w').
Proof.
  induction inp as [|t inp [IHo IHi]]; [by split|].
  split.
  - intros w inp' w'. rewrite rates_loop_cons.
    destruct (decide _).
    { intros [= <- <-]. apply extends_without_sweep_refl. }
    destruct (decide _); intros Hrun.
    + apply IHo in Hrun.
      eapply extends_without_sweep_trans; [apply extends_without_sweep_print|done].
    + apply IHi in Hrun.
      eapply extends_without_sweep_trans; [apply extends_without_sweep_print|done].
  - intros name w inp' w'. rewrite numeric_entry_cons.
    destruct (parse_float t) as [x|]; intros Hrun.
    + apply IHo in Hrun.
      eapply extends_without_sweep_trans;
        [apply extends_without_sweep_set_parameter|done].
    + apply IHi in Hrun.
      eapply extends_without_sweep_trans; [apply extends_without_sweep_print|done].
Qed.

(** Neither loop ever shortens what was printed. *)
Lemma species_loop_stdout (names : list value) (inp : list string) :
  ∀ acc (w : world) sel inp' w',
    species_loop names acc inp w = Ok (sel, inp', w') →
    (length (stdout w) ≤ length (stdout w'))%nat.
Proof.
  induction inp as [|t inp IH]; intros acc w sel inp' w'; simpl; [done|].
  destruct (decide _); [by intros [= <- <- <-]|].
  destruct (decide _); intros Hrun; apply IH in Hrun;
    simpl in Hrun; rewrite length_app in Hrun; simpl in Hrun; lia.
Qed.

Lemma rates_loop_stdout (rates : list value) (inp : list string) :
  (∀ (w : world) inp' w',
     rates_loop parse_float rates inp w = Ok (inp', w') →
     (length (stdout w) ≤ length (stdout w'))%nat) ∧
  (∀ name (w : world) inp' w',
     numeric_entry parse_float rates name inp w = Ok (inp', w') →
     (length (stdout w) ≤ length (stdout w'))%nat).
Proof.
  induction inp as [|t inp [IHo IHi]]; [by split|].
  split.
  - intros w inp' w'. rewrite rates_loop_cons.
    destruct (decide _); [by intros [= <- <-]|].
    destruct (decide _); intros Hrun; [apply IHo in Hrun|apply IHi in Hrun];
      simpl in Hrun; rewrite length_app in Hrun; simpl in Hrun; lia.
  - intros name w inp' w'. rewrite numeric_entry_cons.
    destruct (parse_float t) as [x|]; intros Hrun;
      [apply IHo in Hrun|apply IHi in Hrun]; simpl in Hrun;
      rewrite ?length_app in Hrun; simpl in Hrun; lia.
Qed.

Lemma model_invalid_floats (bads : list string) (w : world) :
  model (foldl (fun w _ => print MsgInvalidFloat w) w bads) = model w
  ∧ calls (foldl (fun w _ => print MsgInvalidFloat w) w bads) = calls w.
Proof.
  revert w. induction bads as [|b bads IH]; intros w; [done|].
  simpl. by destruct (IH (print MsgInvalidFloat w)) as [-> ->].
Qed.

(** C5 (amended): both prompt loops stop on a token exactly when its
    lower-casing is [done]; the species-selection loop compares
    [species_name_input.lower()] just as the parameter-override loop compares
    [parameter_name.lower()], so the two sentinel rules are the same and
    any casing of the word ends either loop. *)
Theorem C5_both_loops_stop_on_any_casing (tok : string)
    (names rates : list value) (acc rest : list string) (w : world) :
  (species_loop names acc (tok :: rest) w = Ok (acc, rest, w)
     ↔ lower tok = "done")
  ∧ (rates_loop parse_float rates (tok :: rest) w = Ok (rest, w)
     ↔ lower tok = "done").
Proof.
  split; split.
  - simpl. destruct (decide _) as [|Hne]; [done|].
    destruct (decide _); intros Hrun; apply species_loop_stdout in Hrun;
      simpl in Hrun; rewrite length_app in Hrun; simpl in Hrun; lia.
  - intros Hd. simpl. by rewrite decide_True.
  - rewrite rates_loop_cons. destruct (decide _) as [|Hne]; [done|].
    destruct (decide _); intros Hrun;
      [apply (proj1 (rates_loop_stdout _ _)) in Hrun
      |apply (proj2 (rates_loop_stdout _ _)) in Hrun];
      simpl in Hrun; rewrite length_app in Hrun; simpl in Hrun; lia.
  - intros Hd. rewrite rates_loop_cons. by rewrite decide_True.
Qed.

(** C9: once a known parameter name is entered, every line that does not
    parse as a float only prints the retry message and asks again; the
    first line that parses is applied to the model by
    [set_reaction_parameters] at once, and the outer loop goes on from that
    already updated model. *)
Theorem C9_numeric_entry_repeats_until_float (rates : list value)
    (name : string) (bads : list string) (good : string) (x : float)
    (rest : list string) (w : world) :
  lower name ≠ "done" →
  VStr name ∈ rates →
  Forall (fun l => parse_float l = None) bads →
  parse_float good = Some x →
  let w1 := foldl (fun w _ => print MsgInvalidFloat w)
                  (print (MsgChanging name) w) bads in
  let w2 := call_set_reaction_parameters name x w1 in
  rates_loop parse_float rates (name :: bads ++ good :: rest) w
  = rates_loop parse_float rates rest w2
  ∧ model w2 = set_reaction_parameters name x (model w)
  ∧ calls w2 = calls w ++ [CallSetReactionParameters name x]
  ∧ stdout w2 = stdout w ++ MsgChanging name
                          :: replicate (length bads) MsgInvalidFloat.
Proof.
  intros Hnd Hin Hb Hg w1 w2. split; [|split; [|split]].
  - rewrite rates_loop_cons, decide_False by done.
    rewrite decide_False by (by intros Hn).
    by apply numeric_entry_steps.
  - unfold w2, w1. simpl. by rewrite (proj1 (model_invalid_floats _ _)).
  - unfold w2, w1. simpl. by rewrite (proj2 (model_invalid_floats _ _)).
  - unfold w2, w1. simpl. clear.
    assert (Hgen : ∀ w0 : world,
      stdout (foldl (fun w _ => print MsgInvalidFloat w) w0 bads)
      = stdout w0 ++ replicate (length bads) MsgInvalidFloat).
    { induction bads as [|b bads IH]; intros w0; simpl.
      - by rewrite app_nil_r.
      - rewrite IH. simpl. by rewrite <- app_assoc. }
    rewrite Hgen. simpl. by rewrite <- app_assoc.
Qed.

Lemma cli_initial_conc_tokens (species_df : DataFrame float) (names : list value)
    (toks : list string) (d : string) (rest : list string) (w : world) :
  Forall (fun t => lower t ≠ "done") toks →
  lower d = "done" →
  ∃ w', cli_initial_conc species_df names (toks ++ d :: rest) w
        = Ok (filter (fun t => VStr t ∈ names) toks, rest, w')
        ∧ model w' = model w ∧ calls w' = calls w.
Proof.
  intros Hno Hd. unfold cli_initial_conc.
  rewrite species_loop_tokens by done. eauto.
Qed.

(** C10 (amended): typing a valid name twice and then the sentinel returns
    the list holding that name twice (the selection is a Python list and
    each valid entry is appended again, without error); only its set of
    elements is the singleton of the name. *)
Theorem C10_duplicate_entry_is_appended_again (species_df : DataFrame float)
    (names : list value) (a : string) (rest : list string) (w : world) :
  VStr a ∈ names →
  lower a ≠ "done" →
  ∃ w', cli_initial_conc species_df names (a :: a :: "done" :: rest) w
        = Ok ([a; a], rest, w')
        ∧ (list_to_set [a; a] : gset string) = {[ a ]}.
Proof.
  clear parse_float. intros Hin Hnd.
  destruct (cli_initial_conc_tokens species_df names [a; a] "done" rest w)
    as (w' & Hrun & _); [by repeat constructor|done|].
  exists w'. split.
  - simpl in Hrun. rewrite !filter_cons_True, filter_nil in Hrun by done.
    exact Hrun.
  - set_solver.
Qed.

End LoopFacts.

(** ** Frames: sizes, combined labels, alignment *)

Section FrameSizes.
Context {float : Type} `{!EqDecision float}.

Abbreviation value := (value float).
Abbreviation DataFrame := (DataFrame float).

Lemma positions_where_absent (c : value) (cols : list value) (k : nat) :
  c ∉ cols → positions_where (fun x => bool_decide (x = c)) k cols = [].
Proof.
  revert k. induction cols as [|x cols IH]; intros k Hc; [done|].
  apply not_elem_of_cons in Hc as [Hne Hc]. simpl.
  rewrite bool_decide_eq_false_2 by done. by apply IH.
Qed.

Lemma positions_where_nodup (c : value) (cols : list value) (k : nat) :
  NoDup cols → c ∈ cols →
  ∃ j, positions_where (fun x => bool_decide (x = c)) k cols = [(k + j)%nat]
       ∧ cols !! j = Some c.
Proof.
  revert k. induction cols as [|x cols IH]; intros k Hnd Hc.
  { by apply elem_of_nil in Hc. }
  apply NoDup_cons in Hnd as [Hx Hnd]. simpl.
  destruct (decide (x = c)) as [->|Hne].
  - rewrite bool_decide_eq_true_2 by done.
    rewrite positions_where_absent by done.
    exists 0%nat. by rewrite Nat.add_0_r.
  - rewrite bool_decide_eq_false_2 by done.
    apply elem_of_cons in Hc as [->|Hc]; [done|].
    destruct (IH (S k) Hnd Hc) as (j & -> & Hj).
    exists (S j). split; [f_equal; lia|done].
Qed.

Lemma positions_nodup (c : value) (cols : list value) :
  NoDup cols → c ∈ cols →
  ∃ j, positions c cols = [j] ∧ cols !! j = Some c.
Proof.
  intros Hnd Hc.
  destruct (positions_where_nodup c cols 0 Hnd Hc) as (j & Hp & Hj). eauto.
Qed.

Lemma getitem_list_raises (keys : list value) (df : DataFrame) (e : exn) :
  getitem_list keys df = Raise e → e = KeyError.
Proof. unfold getitem_list. destruct (forallb _ _); [done|]. by intros [= <-]. Qed.

Lemma align_columns_length (new : list value) (df : DataFrame)
    (rs : list (value * list value)) :
  align_columns new df = Ok rs → length rs = length (rows df).
Proof.
  unfold align_columns. destruct (decide _); [by intros [= <-]|].
  destruct (bool_decide _); [|done]. intros [= <-]. by rewrite length_map.
Qed.

Lemma align_columns_raises (new : list value) (df : DataFrame) (e : exn) :
  align_columns new df = Raise e → e = InvalidIndexError.
Proof.
  unfold align_columns. destruct (decide _); [done|].
  destruct (bool_decide _); [done|]. by intros [= <-].
Qed.

Lemma append_raises (df other : DataFrame) (e : exn) :
  append df other = Raise e → e = InvalidIndexError.
Proof.
  unfold append. simpl.
  destruct (align_columns _ df) eqn:Ha; simpl.
  - destruct (align_columns _ other) eqn:Hb; simpl; [done|].
    intros [= <-]. by apply align_columns_raises in Hb.
  - intros [= <-]. by apply align_columns_raises in Ha.
Qed.

Lemma append_rows_length (df other df' : DataFrame) :
  append df other = Ok df' →
  length (rows df') = (length (rows df) + length (rows other))%nat.
Proof.
  unfold append. simpl.
  destruct (align_columns _ df) as [ra|] eqn:Ha; simpl; [|done].
  destruct (align_columns _ other) as [rb|] eqn:Hb; simpl; [|done].
  intros [= <-]. simpl. rewrite length_app.
  apply align_columns_length in Ha. apply align_columns_length in Hb. lia.
Qed.

Lemma setitem_scalar_rows_length (c v : value) (df : DataFrame) :
  length (rows (setitem_scalar c v df)) = length (rows df).
Proof.
  unfold setitem_scalar, setitem. destruct (decide _); simpl;
    rewrite length_zip_with, length_replicate; lia.
Qed.

Lemma transpose_rows_length (df : DataFrame) :
  length (rows (transpose df)) = length (columns df).
Proof. unfold transpose. simpl. by rewrite length_imap. Qed.

(** With distinct column labels, [df[[c]]] has a single column. *)
Lemma getitem_single_column (c : value) (df data : DataFrame) :
  NoDup (columns df) →
  getitem_list [c] df = Ok data →
  length (columns data) = 1%nat.
Proof.
  intros Hnd. unfold getitem_list. simpl.
  destruct (bool_decide (c ∈ columns df)) eqn:Hc; simpl; [|done].
  apply bool_decide_eq_true_1 in Hc.
  destruct (positions_nodup c (columns df) Hnd Hc) as (j & -> & _).
  by intros [= <-].
Qed.

Lemma unique_nodup (l : list value) : NoDup l → unique l = l.
Proof.
  induction l as [|x l IH]; intros Hnd; [done|].
  apply NoDup_cons in Hnd as [Hx Hnd]. simpl. rewrite IH by done. f_equal.
  clear IH Hnd. induction l as [|y l IH]; [done|].
  apply not_elem_of_cons in Hx as [Hne Hx].
  rewrite filter_cons_True by done. f_equal. by apply IH.
Qed.

Lemma row_of_head (cols : list value) (i : value) (r : list value)
    (rs : list (value * list value)) :
  row_of i (mkDF cols ((i, r) :: rs)) = r.
Proof. unfold row_of. simpl. by rewrite decide_True. Qed.

Lemma row_of_tail (cols : list value) (i j : value) (r : list value)
    (rs : list (value * list value)) :
  i ≠ j → row_of j (mkDF cols ((i, r) :: rs)) = row_of j (mkDF cols rs).
Proof.
  intros Hne. unfold row_of. simpl. rewrite decide_False by done.
  by destruct (list_find _ rs) as [[k ir]|].
Qed.

Lemma row_of_absent (i : value) (df : DataFrame) :
  i ∉ index df → row_of i df = replicate (length (columns df)) VNaN.
Proof.
  intros Hi. unfold row_of.
  destruct (list_find _ _) as [[k ir]|] eqn:Hf; [|done].
  apply list_find_Some in Hf as (Hk & Heq & _).
  destruct Hi. unfold index. apply list_elem_of_fmap. exists ir.
  split; [done|]. by eapply list_elem_of_lookup_2.
Qed.

Lemma row_of_index (cols : list value) (rs : list (value * list value)) :
  NoDup rs.*1 → map (fun i => row_of i (mkDF cols rs)) rs.*1 = rs.*2.
Proof.
  induction rs as [|[i r] rs IH]; intros Hnd; [done|].
  simpl in Hnd. apply NoDup_cons in Hnd as [Hi Hnd].
  simpl. rewrite row_of_head. f_equal.
  etrans; [|by apply IH].
  apply list_fmap_ext. intros k j Hj.
  apply row_of_tail. intros ->. apply Hi. by eapply list_elem_of_lookup_2.
Qed.

Lemma zip_rows (idx : list value) (ca cb : list (list value)) (i : value)
    (ra rb : list value) :
  length idx = length ca → length ca = length cb →
  zip_with (fun i '(ra, rb) => (i, ra ++ rb)) (idx ++ [i]) (zip (ca ++ [ra]) (cb ++ [rb]))
  = zip_with (fun i '(ra, rb) => (i, ra ++ rb)) idx (zip ca cb) ++ [(i, ra ++ rb)].
Proof.
  revert ca cb. induction idx as [|j idx IH]; intros [|a ca] [|b cb]; try done.
  intros [= H1] [= H2]. simpl. f_equal. by apply IH.
Qed.

Lemma concat_axis1_snapshot (block : DataFrame) (names vals : list value) :
  NoDup (index block) →
  VInt 0 ∉ index block →
  concat_axis1 block (mkDF names [(VInt 0, vals)])
  = Ok (mkDF (columns block ++ names)
          (map (fun ir => (ir.1, ir.2 ++ replicate (length names) VNaN)) (rows block)
           ++ [(VInt 0, replicate (length (columns block)) VNaN ++ vals)])).
Proof.
  intros Hnd H0. destruct block as [cols rs]. unfold index in *. simpl in *.
  assert (Hnd' : NoDup (rs.*1 ++ [VInt 0])).
  { apply NoDup_app. split; [done|]. split; [|apply NoDup_singleton].
    intros x Hx ->%list_elem_of_singleton. done. }
  unfold concat_axis1, union_labels, index. simpl.
  rewrite decide_False by (intros Heq; rewrite Heq in H0; apply H0; constructor).
  rewrite unique_nodup by done.
  assert (Ha : align_index (rs.*1 ++ [VInt 0]) (mkDF cols rs)
               = Ok (rs.*2 ++ [replicate (length cols) VNaN])).
  { unfold align_index, index. simpl.
    rewrite decide_False
      by (intros Heq; apply (f_equal length) in Heq;
          rewrite length_app in Heq; simpl in Heq; lia).
    rewrite bool_decide_eq_true_2 by done.
    rewrite map_app, row_of_index by done. simpl.
    by rewrite (row_of_absent (VInt 0) (mkDF cols rs)) by done. }
  assert (Hb : align_index (rs.*1 ++ [VInt 0]) (mkDF names [(VInt 0, vals)])
               = Ok (map (fun _ => replicate (length names) VNaN) rs.*1 ++ [vals])).
  { unfold align_index, index. simpl.
    destruct rs as [|ir rs]; simpl.
    - done.
    - rewrite decide_False
        by (intros Heq; apply (f_equal length) in Heq; simpl in Heq;
            rewrite length_app in Heq; simpl in Heq; lia).
      simpl in H0. apply not_elem_of_cons in H0 as [H01 H02].
      f_equal. f_equal.
      + unfold row_of. simpl. by rewrite decide_False.
      + rewrite map_app. simpl. f_equal.
        apply list_fmap_ext. intros k j Hj. unfold row_of. simpl.
        rewrite decide_False; [done|]. intros <-. apply H02.
        by eapply list_elem_of_lookup_2. }
  rewrite Ha, Hb. simpl.
  rewrite zip_rows by (by rewrite !length_map).
  f_equal. f_equal. f_equal.
  clear. induction rs as [|[i r] rs IH]; [done|]. simpl. f_equal. apply IH.
Qed.
Lemma zip_with_index (rs : list (value * list value)) :
  zip_with (fun (v : value) '(i, r) => (i, r ++ [v])) rs.*1 rs
  = map (fun ir => (ir.1, ir.2 ++ [ir.1])) rs.
Proof. induction rs as [|[i r] rs IH]; [done|]. simpl. f_equal. apply IH. Qed.

Lemma reshaped_cells (h : nat → value)
    (rs : list (value * list value)) :
  Forall (fun ir => length ir.2 = 4%nat) rs →
  let reshaped :=
    map (fun '(i, r) => (i, [cell_at r 0; cell_at r 1]))
      (map (fun '(i, r) =>
              (i, [cell_at r 4; cell_at r 0; cell_at r 1; cell_at r 2; cell_at r 3]))
         (imap (fun (i : nat) (ir : value * list value) => (h i, ir.2))
            (map (fun ir : value * list value =>
                    (ir.1, ir.2 ++ [ir.1])) rs))) in
  map (fun ir : value * list value => cell_at ir.2 0) reshaped = rs.*1
  ∧ map (fun ir : value * list value => cell_at ir.2 1) reshaped
    = map (fun ir => cell_at ir.2 0) rs.
Proof.
  revert h. induction rs as [|[i r] rs IH]; intros h Hlen; [done|].
  apply Forall_cons in Hlen as [Hr Hlen]. simpl in Hr.
  destruct r as [|a [|b [|c [|d [|e r]]]]]; try discriminate Hr.
  destruct (IH (h ∘ S) Hlen) as [IH1 IH2].
  split; simpl; f_equal; [apply IH1|apply IH2].
Qed.

Lemma filter_all (P : value → Prop) `{!∀ x, Decision (P x)} (l : list value) :
  Forall P l → filter P l = l.
Proof.
  induction 1 as [|x l Hx Hl IH]; [done|].
  rewrite filter_cons_True by done. by rewrite IH.
Qed.

Lemma filter_none (P : value → Prop) `{!∀ x, Decision (P x)} (l : list value) :
  Forall (fun x => ¬ P x) l → filter P l = [].
Proof.
  induction 1 as [|x l Hx Hl IH]; [done|].
  by rewrite filter_cons_False.
Qed.

Lemma filter_not_elem_cons (x : value) (a l : list value) :
  filter (fun y => y ≠ x) (filter (fun y => y ∉ a) l)
  = filter (fun y => y ∉ x :: a) l.
Proof.
  induction l as [|y l IH]; [done|].
  destruct (decide (y ∈ a)) as [Hy|Hy].
  - rewrite (filter_cons_False (fun y => y ∉ a)) by (by intros ?).
    rewrite (filter_cons_False (fun y => y ∉ x :: a)); [done|].
    intros Hn. apply Hn. by right.
  - rewrite (filter_cons_True (fun y => y ∉ a)) by done.
    destruct (decide (y = x)) as [->|Hne].
    + rewrite filter_cons_False by (by intros ?).
      rewrite (filter_cons_False (fun y => y ∉ x :: a)); [done|].
      intros Hn. apply Hn. by left.
    + rewrite filter_cons_True by done.
      rewrite (filter_cons_True (fun y => y ∉ x :: a)); [by rewrite IH|].
      by apply not_elem_of_cons.
Qed.

Lemma unique_app (a b : list value) :
  unique (a ++ b) = unique a ++ filter (fun y => y ∉ a) (unique b).
Proof.
  induction a as [|x a IH]; simpl.
  - rewrite filter_all; [done|]. apply Forall_forall. intros y _. apply not_elem_of_nil.
  - rewrite IH, filter_app, filter_not_elem_cons. done.
Qed.

Lemma union_labels_first (n c : value) (s : list value) :
  NoDup (n :: s ++ [c]) →
  union_labels (n :: s) (s ++ [c]) = n :: s ++ [c].
Proof.
  intros Hnd. unfold union_labels.
  rewrite decide_False
    by (intros Heq; apply NoDup_cons in Hnd as [Hn _]; apply Hn;
        rewrite <- Heq; by left).
  assert (Hns : NoDup (n :: s)).
  { rewrite app_comm_cons in Hnd. by apply NoDup_app in Hnd as [? _]. }
  assert (Hsc : NoDup (s ++ [c])) by (by apply NoDup_cons in Hnd as [_ ?]).
  rewrite unique_app, !unique_nodup by done.
  rewrite filter_app.
  rewrite (filter_none _ s); [|apply Forall_forall; intros y Hy Hn; apply Hn; by right].
  rewrite filter_all; [done|]. constructor; [|constructor].
  rewrite app_comm_cons in Hnd. apply NoDup_app in Hnd as (_ & Hd & _).
  intros Hc. apply (Hd c Hc). constructor.
Qed.

Lemma union_labels_later (n c : value) (s : list value) :
  NoDup (n :: s ++ [c]) →
  union_labels (n :: s ++ [c]) (s ++ [c]) = n :: s ++ [c].
Proof.
  intros Hnd. unfold union_labels.
  rewrite decide_False
    by (intros Heq; apply (f_equal length) in Heq; simpl in Heq; lia).
  assert (Hsc : NoDup (s ++ [c])) by (by apply NoDup_cons in Hnd as [_ ?]).
  rewrite unique_app, !unique_nodup by done.
  rewrite filter_none; [by rewrite app_nil_r|].
  apply Forall_forall. intros y Hy Hn. apply Hn. by right.
Qed.

Lemma getitem_list_index (keys : list value) (df data : DataFrame) :
  getitem_list keys df = Ok data → index data = index df.
Proof.
  unfold getitem_list. destruct (forallb _ _); [|done]. intros [= <-].
  unfold take_columns, index. simpl. rewrite <- list_fmap_compose.
  apply list_fmap_ext. by intros k [i r] _.
Qed.

Lemma setitem_scalar_new_column (c v : value) (df : DataFrame) :
  c ∉ columns df → columns (setitem_scalar c v df) = columns df ++ [c].
Proof. intros Hc. unfold setitem_scalar, setitem. by rewrite decide_False. Qed.

Lemma append_columns (df other df' : DataFrame) :
  append df other = Ok df' →
  columns df' = union_labels (columns df) (columns other).
Proof.
  unfold append. simpl.
  destruct (align_columns _ df); simpl; [|done].
  destruct (align_columns _ other); simpl; [|done].
  by intros [= <-].
Qed.

Lemma append_ok (df other : DataFrame) :
  NoDup (columns df) → NoDup (columns other) → ∃ df', append df other = Ok df'.
Proof.
  intros Ha Hb. unfold append, align_columns. simpl.
  destruct (decide (columns df = _)); simpl;
    rewrite ?(bool_decide_eq_true_2 _ Ha); simpl;
    destruct (decide (columns other = _)); simpl;
    rewrite ?(bool_decide_eq_true_2 _ Hb); simpl; eauto.
Qed.
Lemma first_position_nodup (c : value) (cols : list value) (j : nat) :
  NoDup cols → cols !! j = Some c → first_position c cols = Some j.
Proof.
  intros Hnd Hj.
  destruct (positions_nodup c cols Hnd) as (j' & Hp & Hj').
  { by eapply list_elem_of_lookup_2. }
  unfold first_position. rewrite Hp. simpl. f_equal.
  by eapply NoDup_lookup.
Qed.

Lemma first_position_absent (c : value) (cols : list value) :
  c ∉ cols → first_position c cols = None.
Proof.
  intros Hc. unfold first_position, positions.
  by rewrite positions_where_absent.
Qed.

Lemma reindex_cells_id (old r : list value) :
  NoDup old → length r = length old → reindex_cells old old r = r.
Proof.
  intros Hnd Hlen. unfold reindex_cells. apply list_eq. intros i.
  rewrite list_lookup_fmap.
  destruct (old !! i) as [c|] eqn:Hi; simpl.
  - rewrite (first_position_nodup c old i) by done.
    unfold cell_at.
    destruct (r !! i) as [x|] eqn:Hr; [done|].
    apply lookup_ge_None in Hr. apply lookup_lt_Some in Hi. lia.
  - symmetry. apply lookup_ge_None. apply lookup_ge_None in Hi. lia.
Qed.

Lemma reindex_cells_extend (n : value) (old r : list value) :
  NoDup old → n ∉ old → length r = length old →
  reindex_cells old (n :: old) r = VNaN :: r.
Proof.
  intros Hnd Hn Hlen. unfold reindex_cells. simpl.
  rewrite first_position_absent by done. f_equal.
  by apply reindex_cells_id.
Qed.

Lemma getitem_single (c : value) (df data : DataFrame) :
  NoDup (columns df) →
  getitem_list [c] df = Ok data →
  ∃ j, first_position c (columns df) = Some j
       ∧ columns df !! j = Some c
       ∧ data = take_columns [j] df.
Proof.
  intros Hnd. unfold getitem_list. simpl.
  destruct (bool_decide (c ∈ columns df)) eqn:Hc; simpl; [|done].
  apply bool_decide_eq_true_1 in Hc.
  destruct (positions_nodup c (columns df) Hnd Hc) as (j & Hp & Hj).
  rewrite Hp. simpl. intros [= <-]. exists j.
  split; [|done]. unfold first_position. by rewrite Hp.
Qed.

End FrameSizes.

(** ** The sweep *)

Section SweepFacts.
Context {float : Type} `{!EqDecision float}.
Context {M : Type} `{!Facade float M}.
Variable parse_float : string → option float.

Abbreviation value := (value float).
Abbreviation DataFrame := (DataFrame float).
Abbreviation world := (world float M).
Abbreviation conc := (conc float).
Abbreviation analyze := (analyze_steady_states parse_float).
Abbreviation iteration := (iteration parse_float).

Lemma coerce_float_cases (c : conc) :
  (∃ x, coerce_float parse_float c = Ok x)
  ∨ coerce_float parse_float c = Raise ValueError.
Proof.
  destruct c as [x|s]; simpl; [eauto|].
  destruct (parse_float s); eauto.
Qed.

Lemma set_init_conc_raises (sel : list string) (c : conc) (w : world) :
  coerce_float parse_float c = Raise ValueError →
  set_init_conc parse_float sel c w = Raise ValueError.
Proof. intros Hc. unfold set_init_conc. by rewrite Hc. Qed.

Lemma set_init_conc_ok (sel : list string) (c : conc) (x : float) (w : world) :
  coerce_float parse_float c = Ok x →
  set_init_conc parse_float sel c w = Ok (apply_concentration sel x w).
Proof. intros Hc. unfold set_init_conc. by rewrite Hc. Qed.

Lemma analyze_skip_conversion (c : conc) (rest : list conc) (sel : list string)
    (df : DataFrame) (w : world) :
  coerce_float parse_float c = Raise ValueError →
  analyze (c :: rest) sel df w
  = analyze rest sel df (print (MsgSkipConversion c) w).
Proof. intros Hc. simpl. by rewrite set_init_conc_raises. Qed.

Lemma analyze_skip_read (c : conc) (x : float) (rest : list conc)
    (sel : list string) (df : DataFrame) (w : world) :
  coerce_float parse_float c = Ok x →
  getitem_list [VStr "concentration"] (get_species (model (solved sel x w)))
    = Raise KeyError →
  analyze (c :: rest) sel df w
  = analyze rest sel df (print (MsgSkipRead c) (solved sel x w)).
Proof.
  intros Hc Hread. simpl. rewrite (set_init_conc_ok _ _ x) by done.
  unfold solved in *. simpl in *. by rewrite Hread.
Qed.

Lemma analyze_success (c : conc) (x : float) (rest : list conc)
    (sel : list string) (df data df' : DataFrame) (w : world) :
  coerce_float parse_float c = Ok x →
  getitem_list [VStr "concentration"] (get_species (model (solved sel x w)))
    = Ok data →
  append df (new_row c data) = Ok df' →
  analyze (c :: rest) sel df w = analyze rest sel df' (solved sel x w).
Proof.
  intros Hc Hread Happ. simpl. rewrite (set_init_conc_ok _ _ x) by done.
  unfold solved, new_row in *. simpl in *. by rewrite Hread, Happ.
Qed.

Lemma new_row_explicit (cc : conc) (k : value) (sdf data : DataFrame) :
  NoDup (columns sdf) →
  getitem_list [k] sdf = Ok data →
  VStr "IP_tot" ∉ index sdf →
  new_row cc data
  = mkDF (index sdf ++ [VStr "IP_tot"])
         [(k, column_values k sdf ++ [conc_value cc])].
Proof.
  intros Hnd Hg Hip.
  destruct (getitem_single k sdf data Hnd Hg) as (j & Hfp & Hj & ->).
  unfold new_row, column_values. rewrite Hfp.
  unfold setitem_scalar, setitem.
  assert (Hidx : index (take_columns [j] sdf) = index sdf).
  { unfold take_columns, index. simpl. rewrite <- list_fmap_compose.
    apply list_fmap_ext. by intros ? [i r] _. }
  simpl columns. rewrite Hidx.
  rewrite decide_False by done. f_equal.
  unfold transpose, take_columns. simpl. unfold cell_at at 1. rewrite Hj. simpl.
  f_equal. f_equal. f_equal.
  rewrite <- list_fmap_compose. apply list_fmap_ext. by intros ? [i r] _.
Qed.

Lemma analyze_append_raises (c : conc) (x : float) (rest : list conc)
    (sel : list string) (df data : DataFrame) (e : exn) (w : world) :
  coerce_float parse_float c = Ok x →
  getitem_list [VStr "concentration"] (get_species (model (solved sel x w)))
    = Ok data →
  append df (new_row c data) = Raise e →
  analyze (c :: rest) sel df w = Raise e.
Proof.
  intros Hc Hread Happ. simpl. rewrite (set_init_conc_ok _ _ x) by done.
  unfold solved, new_row in *. simpl in *. by rewrite Hread, Happ.
Qed.

Lemma iteration_cases (c : conc) (sel : list string) (df : DataFrame) (w : world) :
  iteration c sel df w.
Proof.
  destruct (coerce_float parse_float c) as [x|e] eqn:Hc.
  - destruct (getitem_list [VStr "concentration"]
                (get_species (model (solved sel x w)))) as [data|e] eqn:Hread.
    + destruct (append df (new_row c data)) as [df'|e] eqn:Happ.
      * by eapply Row.
      * pose proof (append_raises _ _ _ Happ) as ->. by eapply AppendRaises.
    + pose proof (getitem_list_raises _ _ _ Hread) as ->. by eapply SkipRead.
  - destruct (coerce_float_cases c) as [[x Hx]|Hx]; [congruence|].
    rewrite Hx in Hc. injection Hc as <-. by apply SkipConversion.
Qed.

Lemma analyze_app (pre post : list conc) (sel : list string) :
  ∀ (df : DataFrame) (w : world),
    analyze (pre ++ post) sel df w
    = match analyze pre sel df w with
      | Ok (t, w1) => analyze post sel t w1
      | Raise e => Raise e
      end.
Proof.
  induction pre as [|c pre IH]; intros df w; [done|].
  rewrite <- app_comm_cons.
  destruct (iteration_cases c sel df w) as [Hc|x Hc Hr|x data df' Hc Hr Ha|x data Hc Hr Ha].
  - rewrite !analyze_skip_conversion by done. apply IH.
  - rewrite !(analyze_skip_read c x) by done. apply IH.
  - rewrite !(analyze_success c x _ sel df data df') by done. apply IH.
  - by rewrite !(analyze_append_raises c x _ sel df data InvalidIndexError).
Qed.

Lemma apply_concentration_effects (sel : list string) (x : float) :
  ∀ w : world,
    model (apply_concentration sel x w)
      = foldl (fun m spec => set_species spec x m) (model w) sel
    ∧ calls (apply_concentration sel x w)
      = calls w ++ map (fun spec => CallSetSpecies spec x) sel
    ∧ stdout (apply_concentration sel x w) = stdout w.
Proof.
  induction sel as [|spec sel IH]; intros w.
  { simpl. by rewrite app_nil_r. }
  unfold apply_concentration in *. simpl.
  destruct (IH (call_set_species spec x w)) as (-> & -> & ->).
  simpl. by rewrite <- app_assoc.
Qed.

Lemma solved_effects (sel : list string) (x : float) (w : world) :
  model (solved sel x w)
    = run_steadystate (foldl (fun m spec => set_species spec x m) (model w) sel)
  ∧ calls (solved sel x w)
    = calls w ++ map (fun spec => CallSetSpecies spec x) sel
              ++ [CallRunSteadystate; CallGetSpecies]
  ∧ stdout (solved sel x w) = stdout w.
Proof.
  unfold solved. simpl.
  destruct (apply_concentration_effects sel x w) as (-> & -> & ->).
  by rewrite <- !app_assoc.
Qed.

Lemma ahead_by_solved (d : nat) (sel : list string) (x : float) (w1 w2 : world) :
  ahead_by d w1 w2 → ahead_by d (solved sel x w1) (solved sel x w2).
Proof.
  intros (Hm & Hc & Hs).
  destruct (solved_effects sel x w1) as (Hm1 & Hc1 & Hs1).
  destruct (solved_effects sel x w2) as (Hm2 & Hc2 & Hs2).
  unfold ahead_by. by rewrite Hm1, Hc1, Hs1, Hm2, Hc2, Hs2, Hm, Hc, Hs.
Qed.

Lemma ahead_by_print (d : nat) (msg : message float) (w1 w2 : world) :
  ahead_by d w1 w2 → ahead_by d (print msg w1) (print msg w2).
Proof.
  intros (Hm & Hc & Hs). unfold ahead_by. simpl.
  rewrite !length_app. simpl. repeat split; [done|done|lia].
Qed.

(** The sweep does not look at what was printed before. *)
Lemma analyze_ahead (concs : list conc) (sel : list string) (d : nat) :
  ∀ (df : DataFrame) (w1 w2 : world),
    ahead_by d w1 w2 →
    same_sweep d (analyze concs sel df w1) (analyze concs sel df w2).
Proof.
  induction concs as [|c concs IH]; intros df w1 w2 Hw; [done|].
  pose proof (ahead_by_solved d sel) as Hsol.
  destruct (iteration_cases c sel df w1) as [Hc|x Hc Hr|x data df' Hc Hr Ha|x data Hc Hr Ha].
  - rewrite !analyze_skip_conversion by done. by apply IH, ahead_by_print.
  - assert (Hr2 := Hr). rewrite (proj1 (Hsol x w1 w2 Hw)) in Hr2.
    rewrite !(analyze_skip_read c x) by done.
    by apply IH, ahead_by_print, Hsol.
  - assert (Hr2 := Hr). rewrite (proj1 (Hsol x w1 w2 Hw)) in Hr2.
    rewrite !(analyze_success c x _ sel df data df') by done.
    by apply IH, Hsol.
  - assert (Hr2 := Hr). rewrite (proj1 (Hsol x w1 w2 Hw)) in Hr2.
    by rewrite !(analyze_append_raises c x _ sel df data InvalidIndexError).
Qed.

(** The only exception that can leave the sweep is the one [append]
    raises on repeated labels. *)
Lemma analyze_raises (concs : list conc) (sel : list string) :
  ∀ (df : DataFrame) (w : world) (e : exn),
    analyze concs sel df w = Raise e → e = InvalidIndexError.
Proof.
  induction concs as [|c concs IH]; intros df w e; [done|].
  destruct (iteration_cases c sel df w) as [Hc|x Hc Hr|x data df' Hc Hr Ha|x data Hc Hr Ha].
  - rewrite analyze_skip_conversion by done. apply IH.
  - rewrite (analyze_skip_read c x) by done. apply IH.
  - rewrite (analyze_success c x _ sel df data df') by done. apply IH.
  - rewrite (analyze_append_raises c x _ sel df data InvalidIndexError) by done.
    by intros [= <-].
Qed.

(** Every value leaves one row or one skip line, when the species frame
    has distinct column labels. *)
Lemma analyze_one_outcome_per_value (concs : list conc) (sel : list string) :
  (∀ m : M, NoDup (columns (get_species m))) →
  ∀ (df : DataFrame) (w : world) (t : DataFrame) (w' : world),
    analyze concs sel df w = Ok (t, w') →
    ∃ skips : nat,
      length (stdout w') = (length (stdout w) + skips)%nat
      ∧ (length (rows t) + skips = length (rows df) + length concs)%nat.
Proof.
  intros Hcols.
  induction concs as [|c concs IH]; intros df w t w'.
  { intros [= <- <-]. exists 0%nat. simpl. lia. }
  destruct (iteration_cases c sel df w) as [Hc|x Hc Hr|x data df' Hc Hr Ha|x data Hc Hr Ha].
  - rewrite analyze_skip_conversion by done. intros Hrun.
    apply IH in Hrun as (k & Hk1 & Hk2). exists (S k).
    simpl in *. rewrite length_app in Hk1. simpl in Hk1. lia.
  - rewrite (analyze_skip_read c x) by done. intros Hrun.
    apply IH in Hrun as (k & Hk1 & Hk2). exists (S k).
    simpl in Hk1. rewrite length_app in Hk1. simpl in *.
    rewrite (proj2 (proj2 (apply_concentration_effects sel x w))) in Hk1. lia.
  - rewrite (analyze_success c x _ sel df data df') by done. intros Hrun.
    apply IH in Hrun as (k & Hk1 & Hk2). exists k.
    rewrite (proj2 (proj2 (solved_effects sel x w))) in Hk1.
    apply append_rows_length in Ha.
    unfold new_row in Ha.
    rewrite setitem_scalar_rows_length, transpose_rows_length in Ha.
    rewrite (getitem_single_column _ _ _ (Hcols _) Hr) in Ha.
    simpl. lia.
  - by rewrite (analyze_append_raises c x _ sel df data InvalidIndexError).
Qed.

(** C7 (amended): a value whose float coercion fails makes [set_init_conc]
    raise before any species is set; the iteration prints the skip and the
    sweep goes on with the same table, from the same model and with no call
    made.  The row is absent: the sweep of a sequence with that value ends
    as the sweep of the same sequence without it does, with the same table,
    hence the same row count, the same model and the same calls, and one
    more line printed. *)
Theorem C7_unconvertible_value_is_skipped (pre : list conc) (c : conc)
    (post : list conc) (sel : list string) (df : DataFrame) (w : world) :
  coerce_float parse_float c = Raise ValueError →
  (∀ w0 : world, set_init_conc parse_float sel c w0 = Raise ValueError)
  ∧ (∀ (df0 : DataFrame) (w0 : world),
       analyze [c] sel df0 w0
       = Ok (df0, World (model w0) (calls w0)
                    (stdout w0 ++ [MsgSkipConversion c])))
  ∧ (∀ (df0 : DataFrame) (w0 : world),
       analyze (c :: post) sel df0 w0
       = analyze post sel df0 (print (MsgSkipConversion c) w0))
  ∧ same_sweep 1 (analyze (pre ++ c :: post) sel df w)
                 (analyze (pre ++ post) sel df w)
  ∧ (∀ (t : DataFrame) (w2 : world),
       analyze (pre ++ post) sel df w = Ok (t, w2) →
       ∃ w1 : world,
         analyze (pre ++ c :: post) sel df w = Ok (t, w1)
         ∧ model w1 = model w2
         ∧ calls w1 = calls w2
         ∧ length (stdout w1) = S (length (stdout w2))).
Proof.
  intros Hc.
  assert (Hsame : same_sweep 1 (analyze (pre ++ c :: post) sel df w)
                               (analyze (pre ++ post) sel df w)).
  { rewrite !analyze_app.
    destruct (analyze pre sel df w) as [[t w1]|e]; [|done].
    rewrite analyze_skip_conversion by done.
    apply analyze_ahead. unfold ahead_by. simpl.
    rewrite length_app. simpl. repeat split; lia. }
  split; [|split; [|split; [|split]]].
  - intros w0. by apply set_init_conc_raises.
  - intros df0 w0. by rewrite analyze_skip_conversion.
  - intros df0 w0. by apply analyze_skip_conversion.
  - exact Hsame.
  - intros t w2 Hrun. rewrite Hrun in Hsame.
    destruct (analyze (pre ++ c :: post) sel df w) as [[t1 w1]|e]; [|done].
    destruct Hsame as (-> & Hm & Hcalls & Hout). by exists w1.
Qed.

(** C8 (amended): when the value converts but
    [get_species()[['concentration']]] raises [KeyError] after the solve,
    the iteration prints the diagnostic and the sweep goes on with the next
    value, the table untouched; and no [KeyError] of a read nor
    [ValueError] of a conversion ever leaves [analyze_steady_states]. *)
Theorem C8_read_failure_is_skipped (c : conc) (x : float) (rest : list conc)
    (sel : list string) (df : DataFrame) (w : world) :
  coerce_float parse_float c = Ok x →
  getitem_list [VStr "concentration"] (get_species (model (solved sel x w)))
    = Raise KeyError →
  analyze [c] sel df w = Ok (df, print (MsgSkipRead c) (solved sel x w))
  ∧ analyze (c :: rest) sel df w
    = analyze rest sel df (print (MsgSkipRead c) (solved sel x w))
  ∧ (∀ (concs0 : list conc) (sel0 : list string) (df0 : DataFrame)
       (w0 : world) (e : exn),
       analyze concs0 sel0 df0 w0 = Raise e → e ≠ KeyError ∧ e ≠ ValueError).
Proof.
  intros Hc Hr. split; [|split].
  - by rewrite (analyze_skip_read c x).
  - by apply analyze_skip_read.
  - intros concs0 sel0 df0 w0 e He. by apply analyze_raises in He as ->.
Qed.

End SweepFacts.

(** ** The parameter snapshot and the assembled table *)

Section ProgramFacts.
Context {float : Type} `{!EqDecision float}.
Context {M : Type} `{!Facade float M}.
Variable parse_float : string → option float.

Abbreviation value := (value float).
Abbreviation DataFrame := (DataFrame float).
Abbreviation world := (world float M).
Abbreviation conc := (conc float).
Abbreviation analyze := (analyze_steady_states parse_float).
Abbreviation main := (main parse_float).

Lemma handle_parameters_df_shape (w : world) :
  basico_parameters (get_reaction_parameters (model w)) →
  handle_parameters_df w
  = Ok (snapshot (model w), (call_get_reaction_parameters w).2).
Proof.
  intros [Hcols Hrows].
  unfold handle_parameters_df, snapshot, parameter_names, parameter_values. simpl.
  destruct (get_reaction_parameters (model w)) as [cols rs]. simpl in *. subst cols.
  unfold setitem. simpl columns.
  rewrite decide_False
    by (intros Hin; repeat (apply elem_of_cons in Hin as [?|Hin]; [discriminate|]);
        by apply elem_of_nil in Hin).
  unfold index. simpl rows. rewrite zip_with_index.
  unfold reset_index_drop. simpl columns. simpl rows.
  change (move_to_front (VStr "rates")
            ([VStr "value"; VStr "reaction"; VStr "type"; VStr "mapped_to"]
             ++ [VStr "rates"]))
    with (Ok (A:=list value)
            [VStr "rates"; VStr "value"; VStr "reaction"; VStr "type";
             VStr "mapped_to"]).
  simpl mbind. unfold mbind, res_bind.
  unfold getitem_list. simpl columns.
  unfold transpose, take_columns, columns_from_first_row, index; simpl.
  rewrite !length_map, !length_imap, !length_map.
  rewrite decide_True by done. simpl.
  destruct (reshaped_cells (fun i => VInt (Z.of_nat i)) rs Hrows) as [-> ->].
  done.
Qed.

Lemma assemble_beside_snapshot (block : DataFrame) (w : world) :
  basico_parameters (get_reaction_parameters (model w)) →
  NoDup (index block) →
  VInt 0 ∉ index block →
  assemble block w
  = Ok (beside_snapshot block (model w), (call_get_reaction_parameters w).2).
Proof.
  intros Hshape Hnd H0. unfold assemble.
  rewrite handle_parameters_df_shape by done. simpl.
  unfold snapshot. by rewrite concat_axis1_snapshot.
Qed.

Lemma concat_axis1_columns (a b df : DataFrame) :
  concat_axis1 a b = Ok df → columns df = columns a ++ columns b.
Proof.
  unfold concat_axis1. simpl.
  destruct (align_index _ a); simpl; [|done].
  destruct (align_index _ b); simpl; [|done].
  by intros [= <-].
Qed.

Lemma cli_initial_conc_frame (species_df : DataFrame) (names : list value)
    (inp : list string) (w : world) sel inp' w' :
  cli_initial_conc species_df names inp w = Ok (sel, inp', w') →
  model w' = model w ∧ calls w' = calls w.
Proof. unfold cli_initial_conc. intros Hrun. by apply species_loop_frame in Hrun. Qed.

Lemma cli_set_rates_frame (inp : list string) (w : world) inp' w' :
  cli_set_rates parse_float inp w = Ok (inp', w') →
  extends_without_sweep w w'.
Proof.
  unfold cli_set_rates. simpl.
  destruct (rates_loop _ _ _ _) as [[inp1 w1]|] eqn:Hloop; simpl; [|done].
  intros [= <- <-].
  apply (proj1 (rates_loop_calls _ _ _)) in Hloop.
  destruct Hloop as (cs & Hcs & Hall). simpl in Hcs.
  exists ([CallGetReactionParameters] ++ cs ++ [CallGetReactionParameters]).
  split.
  - simpl. rewrite Hcs. by rewrite <- !app_assoc.
  - apply Forall_app. split; [constructor; [by intros []|constructor]|].
    apply Forall_app. split; [done|]. constructor; [by intros []|constructor].
Qed.

Lemma handle_parameters_df_world (w : world) (p : DataFrame) (w' : world) :
  handle_parameters_df w = Ok (p, w') → w' = (call_get_reaction_parameters w).2.
Proof.
  unfold handle_parameters_df. simpl.
  destruct (move_to_front _ _); simpl; [|done].
  destruct (getitem_list _ _); simpl; [|done].
  destruct (drop_columns _ _); simpl; [|done].
  destruct (columns_from_first_row _); simpl; [|done].
  by intros [= _ <-].
Qed.

Lemma assemble_run (block df : DataFrame) (w w' : world) :
  assemble block w = Ok (df, w') →
  w' = (call_get_reaction_parameters w).2
  ∧ ∃ p, handle_parameters_df w = Ok (p, w') ∧ concat_axis1 block p = Ok df.
Proof.
  unfold assemble. simpl.
  destruct (handle_parameters_df w) as [[p w1]|] eqn:Hh; simpl; [|done].
  destruct (concat_axis1 block p) as [t|] eqn:Hc; simpl; [|done].
  intros [= <- <-]. split; [by eapply handle_parameters_df_world|eauto].
Qed.

(** The stages of one run of the script. *)
Lemma main_run (concs : list conc) (inp : list string) (w : world)
    (df : DataFrame) (inp' : list string) (w' : world) :
  main concs inp w = Ok (df, inp', w') →
  ∃ sel inp1 w1 w2,
    cli_initial_conc (get_species (model w))
      (VStr "name" :: index (get_species (model w))) inp (call_get_species w).2
      = Ok (sel, inp1, w1)
    ∧ cli_set_rates parse_float inp1 w1 = Ok (inp', w2)
    ∧ assemble (empty_frame (VStr "name" :: index (get_species (model w)))) w2
      = Ok (df, (call_get_reaction_parameters w2).2)
    ∧ w' = print MsgCsvGenerated (call_get_reaction_parameters w2).2.
Proof.
  unfold main, select_species. simpl.
  destruct (cli_initial_conc _ _ _ _) as [[[sel inp1] w1]|] eqn:H1; simpl; [|done].
  destruct (cli_set_rates _ _ _) as [[inp2 w2]|] eqn:H2; simpl; [|done].
  destruct (assemble _ _) as [[t w3]|] eqn:H3; simpl; [|done].
  intros [= <- <- <-].
  destruct (assemble_run _ _ _ _ H3) as [-> _].
  by exists sel, inp1, w1, w2.
Qed.

Lemma main_effects (concs : list conc) (inp : list string) (w : world)
    (df : DataFrame) (inp' : list string) (w' : world) :
  main concs inp w = Ok (df, inp', w') →
  extends_without_sweep w w'
  ∧ ∃ w2, model w2 = model w'
          ∧ assemble (empty_frame (VStr "name" :: index (get_species (model w)))) w2
            = Ok (df, (call_get_reaction_parameters w2).2).
Proof.
  intros Hrun.
  destruct (main_run _ _ _ _ _ _ Hrun) as (sel & inp1 & w1 & w2 & H1 & H2 & H3 & ->).
  split; [|by exists w2].
  apply cli_initial_conc_frame in H1 as [Hm Hc].
  apply cli_set_rates_frame in H2.
  eapply extends_without_sweep_trans; [apply extends_without_sweep_get_species|].
  eapply extends_without_sweep_trans.
  { exists []. rewrite app_nil_r. split; [exact Hc|constructor]. }
  eapply extends_without_sweep_trans; [exact H2|].
  eapply extends_without_sweep_trans; [apply extends_without_sweep_get_parameters|].
  apply extends_without_sweep_print.
Qed.

(** C2: the script never calls [analyze_steady_states].  Whatever the
    concentration sequence, a run is the run on the empty sequence; it
    makes no [set_species] and no [run_steadystate] call; and the frame
    written to the CSV is the empty species frame (columns [name], then
    the species) concatenated with what [handle_parameters_df] returns,
    that is, with the [basico] parameter frame, the single row of the
    parameter values with NaN in every species cell. *)
Theorem C2_main_never_sweeps (concs : list conc) (inp : list string) (w : world) :
  main concs inp w = main [] inp w
  ∧ ∀ (df : DataFrame) (inp' : list string) (w' : world),
      main concs inp w = Ok (df, inp', w') →
      extends_without_sweep w w'
      ∧ (∃ (w2 : world) (p : DataFrame),
           model w2 = model w'
           ∧ handle_parameters_df w2 = Ok (p, (call_get_reaction_parameters w2).2)
           ∧ concat_axis1
               (empty_frame (VStr "name" :: index (get_species (model w)))) p
             = Ok df)
      ∧ (basico_parameters (get_reaction_parameters (model w')) →
         df = mkDF (VStr "name" :: index (get_species (model w))
                    ++ parameter_names (model w'))
                [(VInt 0,
                  replicate (S (length (index (get_species (model w))))) VNaN
                  ++ parameter_values (model w'))]).
Proof.
  split; [done|]. intros df inp' w' Hrun.
  destruct (main_effects _ _ _ _ _ _ Hrun) as (Hext & w2 & Hm & Has).
  split; [done|]. split.
  - destruct (assemble_run _ _ _ _ Has) as (_ & p & Hp & Hc). by exists w2, p.
  - intros Hshape. rewrite <- Hm in Hshape.
    rewrite assemble_beside_snapshot in Has; [|done|constructor|by intros ?%elem_of_nil].
    injection Has as <-. by rewrite Hm.
Qed.

(** A block with two or more sweep rows carries the label [concentration]
    more than once, and [concat] refuses to align it with the snapshot. *)
Lemma assemble_sweep_rows_raises (species : list value)
    (r1 r2 : list value * value) (rs : list (list value * value)) (w : world) :
  basico_parameters (get_reaction_parameters (model w)) →
  assemble (sweep_table species (r1 :: r2 :: rs)) w = Raise InvalidIndexError.
Proof.
  intros Hshape. unfold assemble.
  rewrite handle_parameters_df_shape by done.
  cbn [mbind res_bind]. unfold concat_axis1.
  set (block := sweep_table species (r1 :: r2 :: rs)).
  assert (Hidx : index block
                 = VStr "concentration" :: VStr "concentration"
                   :: map (fun _ => VStr "concentration") rs).
  { unfold block, index. simpl. do 2 f_equal. rewrite <- list_fmap_compose.
    by apply list_fmap_ext. }
  assert (Ha : align_index (union_labels (index block) (index (snapshot (model w))))
                 block = Raise InvalidIndexError).
  { unfold align_index. rewrite decide_False.
    - rewrite bool_decide_eq_false_2; [done|].
      rewrite Hidx. intros Hnd. apply NoDup_cons in Hnd as [Hn _].
      apply Hn. by left.
    - unfold union_labels. rewrite Hidx.
      change (index (snapshot (model w))) with [VInt (float:=float) 0].
      rewrite decide_False by done. cbn [app unique]. intros [= Heq].
      assert (Hin : VStr (float:=float) "concentration"
                    ∈ VStr "concentration"
                      :: map (fun _ : list value * value => VStr "concentration") rs)
        by (by left).
      rewrite Heq in Hin. by apply list_elem_of_filter in Hin as [Hne _]. }
  by rewrite Ha.
Qed.

End ProgramFacts.

(** ** The table the sweep builds *)

Section SweepTable.
Context {float : Type} `{!EqDecision float}.
Context {M : Type} `{!Facade float M}.
Variable parse_float : string → option float.

Abbreviation value := (value float).
Abbreviation DataFrame := (DataFrame float).
Abbreviation world := (world float M).
Abbreviation conc := (conc float).
Abbreviation analyze := (analyze_steady_states parse_float).

(** The species universe, with names apart from the two labels the script
    adds; a model whose species frame keeps its labels. *)
Variable species : list value.
Hypothesis labels_distinct : NoDup (VStr "name" :: species ++ [VStr "IP_tot"]).
Hypothesis species_columns_distinct : ∀ m : M, NoDup (columns (get_species m)).
Hypothesis set_species_keeps_index :
  ∀ (n : string) (x : float) (m : M),
    index (get_species (set_species n x m)) = index (get_species m).
Hypothesis run_steadystate_keeps_index :
  ∀ m : M, index (get_species (run_steadystate m)) = index (get_species m).

Lemma species_nodup :
  NoDup species ∧ (VStr "name" ∉ species) ∧ (VStr "IP_tot" ∉ species)
  ∧ NoDup (species ++ [VStr "IP_tot"])
  ∧ VStr "name" ∉ (species ++ [VStr "IP_tot"]).
Proof.
  pose proof labels_distinct as Hnd.
  apply NoDup_cons in Hnd as [Hn Hnd].
  pose proof Hnd as Hnd'. apply NoDup_app in Hnd' as (Hs & Hd & _).
  repeat split; try done.
  - intros Hin. apply Hn. apply elem_of_app. by left.
  - intros Hin. apply (Hd _ Hin). constructor.
Qed.

Lemma align_columns_same (df : DataFrame) :
  align_columns (columns df) df = Ok (rows df).
Proof. unfold align_columns. by rewrite decide_True. Qed.

Lemma align_columns_reindex (new : list value) (df : DataFrame) :
  columns df ≠ new → NoDup (columns df) →
  align_columns new df
  = Ok (map (fun '(i, r) => (i, reindex_cells (columns df) new r)) (rows df)).
Proof.
  intros Hne Hnd. unfold align_columns.
  by rewrite decide_False, bool_decide_eq_true_2.
Qed.

Lemma append_sweep_table (rs : list (list value * value)) (cs : list value) (v : value) :
  length cs = length species →
  append (sweep_table species rs)
         (mkDF (species ++ [VStr "IP_tot"]) [(VStr "concentration", cs ++ [v])])
  = Ok (sweep_table species (rs ++ [(cs, v)])).
Proof.
  intros Hlen. destruct species_nodup as (Hs & Hn & Hip & Hsi & Hnsi).
  assert (Hrow : reindex_cells (species ++ [VStr "IP_tot"])
                   (VStr "name" :: species ++ [VStr "IP_tot"]) (cs ++ [v])
                 = VNaN :: cs ++ [v]).
  { apply reindex_cells_extend; [done|done|]. rewrite !length_app. simpl. lia. }
  assert (Hne : species ++ [VStr "IP_tot"] ≠ VStr "name" :: species ++ [VStr "IP_tot"]).
  { intros Heq. apply (f_equal length) in Heq. simpl in Heq. lia. }
  unfold append. destruct rs as [|r rs].
  - change (columns (sweep_table species [])) with (VStr "name" :: species).
    change (columns (mkDF (species ++ [VStr "IP_tot"])
                       [(VStr "concentration", cs ++ [v])]))
      with (species ++ [VStr "IP_tot"]).
    rewrite union_labels_first by done.
    rewrite (align_columns_reindex _ (sweep_table species [])).
    2:{ simpl. intros Heq. apply (f_equal length) in Heq. simpl in Heq.
        rewrite length_app in Heq. simpl in Heq. lia. }
    2:{ simpl. by apply NoDup_cons. }
    rewrite align_columns_reindex by done.
    cbn [rows sweep_table empty_frame map columns mbind res_bind app].
    by rewrite Hrow.
  - change (columns (sweep_table species (r :: rs)))
      with (VStr "name" :: species ++ [VStr "IP_tot"]).
    change (columns (mkDF (species ++ [VStr "IP_tot"])
                       [(VStr "concentration", cs ++ [v])]))
      with (species ++ [VStr "IP_tot"]).
    rewrite union_labels_later by done.
    pose proof (align_columns_same (sweep_table species (r :: rs))) as Hsame.
    change (columns (sweep_table species (r :: rs)))
      with (VStr "name" :: species ++ [VStr "IP_tot"]) in Hsame.
    rewrite Hsame.
    rewrite align_columns_reindex by done.
    cbn [rows sweep_table empty_frame map columns mbind res_bind app].
    rewrite Hrow. by rewrite map_app.
Qed.

Lemma solved_index (sel : list string) (x : float) (w : world) :
  index (get_species (model (solved sel x w))) = index (get_species (model w)).
Proof.
  rewrite (proj1 (solved_effects sel x w)).
  rewrite run_steadystate_keeps_index.
  generalize (model w). induction sel as [|spec sel IH]; intros m; [done|].
  simpl. by rewrite IH, set_species_keeps_index.
Qed.

Lemma column_values_length (c : value) (df : DataFrame) :
  c ∈ columns df → length (column_values c df) = length (index df).
Proof.
  intros Hc. unfold column_values, first_position, positions.
  destruct (positions_where _ 0 (columns df)) as [|j js] eqn:Hp.
  - exfalso. revert Hp. generalize 0%nat.
    induction (columns df) as [|x cols IH]; intros k; [by apply elem_of_nil in Hc|].
    simpl. destruct (decide (x = c)) as [->|Hne].
    + by rewrite bool_decide_eq_true_2.
    + rewrite bool_decide_eq_false_2 by done.
      apply elem_of_cons in Hc as [->|Hc]; [done|]. by apply IH.
  - simpl. unfold index. by rewrite !length_map.
Qed.

(** The sweep, started on the table of the rows [rs], ends on the table
    of [rs] and of the rows of its own values: it raises nothing, and it
    prints one line per value that yields no row. *)
Lemma analyze_sweep_table (concs : list conc) (sel : list string) :
  ∀ (rs : list (list value * value)) (w : world),
    index (get_species (model w)) = species →
    ∃ w', analyze concs sel (sweep_table species rs) w
          = Ok (sweep_table species (rs ++ sweep_rows parse_float concs sel (model w)), w')
          ∧ (length (stdout w') + length (sweep_rows parse_float concs sel (model w))
             = length (stdout w) + length concs)%nat.
Proof.
  destruct species_nodup as (Hs & Hn & Hip & Hsi & Hnsi).
  induction concs as [|c concs IH]; intros rs w Hidx.
  { exists w. simpl. rewrite app_nil_r. split; [done|lia]. }
  simpl sweep_rows.
  destruct (coerce_float parse_float c) as [x|e] eqn:Hc.
  - pose proof (solved_index sel x w) as Hidx'. rewrite Hidx in Hidx'.
    pose proof (solved_effects sel x w) as (Hm & _ & Hout).
    rewrite <- Hm.
    destruct (getitem_list [VStr "concentration"]
                (get_species (model (solved sel x w)))) as [data|e] eqn:Hread.
    + assert (Hin : VStr "concentration" ∈ columns (get_species (model (solved sel x w)))).
      { unfold getitem_list in Hread. simpl in Hread.
        destruct (bool_decide _) eqn:Hb; [|done]. by apply bool_decide_eq_true_1 in Hb. }
      rewrite bool_decide_eq_true_2 by done.
      pose proof (new_row_explicit c _ _ _ (species_columns_distinct _) Hread) as Hnew.
      rewrite Hidx' in Hnew. specialize (Hnew Hip).
      pose proof (append_sweep_table rs
        (column_values (VStr "concentration") (get_species (model (solved sel x w))))
        (conc_value c)) as Happ.
      rewrite column_values_length, Hidx' in Happ by done.
      specialize (Happ eq_refl). rewrite <- Hnew in Happ.
      rewrite (analyze_success parse_float c x concs sel _ data _ w Hc Hread Happ).
      destruct (IH (rs ++ [(column_values (VStr "concentration")
                              (get_species (model (solved sel x w))), conc_value c)])
                   (solved sel x w) Hidx') as (w' & Hrun & Hcount).
      exists w'. rewrite <- app_assoc in Hrun. split; [exact Hrun|].
      rewrite Hout in Hcount. cbn [length]. lia.
    + pose proof (getitem_list_raises _ _ _ Hread) as ->.
      assert (Hin : VStr "concentration" ∉ columns (get_species (model (solved sel x w)))).
      { unfold getitem_list in Hread. simpl in Hread.
        destruct (bool_decide _) eqn:Hb; [done|]. by apply bool_decide_eq_false_1 in Hb. }
      rewrite bool_decide_eq_false_2 by done.
      rewrite (analyze_skip_read parse_float c x) by done.
      destruct (IH rs (print (MsgSkipRead c) (solved sel x w)) Hidx') as (w' & Hrun & Hcount).
      exists w'. split; [exact Hrun|].
      cbn [print model stdout] in Hcount.
      rewrite length_app, Hout in Hcount. cbn [length] in *. lia.
  - destruct (coerce_float_cases parse_float c) as [[x Hx]|Hx]; [congruence|].
    rewrite (analyze_skip_conversion parse_float) by done.
    destruct (IH rs (print (MsgSkipConversion c) w) Hidx) as (w' & Hrun & Hcount).
    exists w'. split; [exact Hrun|].
    cbn [print model stdout] in Hcount.
    rewrite length_app in Hcount. cbn [length] in *. lia.
Qed.

Lemma swept_model_index (sel : list string) (x : float) (m : M) :
  index (get_species
           (run_steadystate (foldl (fun m spec => set_species spec x m) m sel)))
  = index (get_species m).
Proof.
  rewrite run_steadystate_keeps_index.
  revert m. induction sel as [|spec sel IH]; intros m; [done|].
  simpl. by rewrite IH, set_species_keeps_index.
Qed.

Lemma sweep_rows_values (concs : list conc) (sel : list string) :
  ∀ m : M, (sweep_rows parse_float concs sel m).*2 `sublist_of` map conc_value concs.
Proof.
  induction concs as [|c concs IH]; intros m; [constructor|].
  simpl. destruct (coerce_float parse_float c) as [x|e].
  - destruct (bool_decide _); simpl; [apply sublist_skip|apply sublist_cons]; apply IH.
  - apply sublist_cons, IH.
Qed.

Lemma sweep_rows_cells (concs : list conc) (sel : list string) :
  ∀ m : M,
    index (get_species m) = species →
    Forall (fun r => length r.1 = length species) (sweep_rows parse_float concs sel m).
Proof.
  induction concs as [|c concs IH]; intros m Hidx; [constructor|].
  simpl. destruct (coerce_float parse_float c) as [x|e]; [|by apply IH].
  pose proof (swept_model_index sel x m) as Hidx'. rewrite Hidx in Hidx'.
  destruct (bool_decide _) eqn:Hb; [|by apply IH].
  apply bool_decide_eq_true_1 in Hb.
  constructor; [|by apply IH].
  simpl. by rewrite column_values_length, Hidx'.
Qed.

Lemma sublist_same_length {A : Type} (l1 l2 : list A) :
  l1 `sublist_of` l2 → (length l2 ≤ length l1)%nat → l1 = l2.
Proof.
  induction 1 as [|x l1 l2 Hsub IH|x l1 l2 Hsub IH]; simpl; intros Hlen.
  - done.
  - f_equal. apply IH. lia.
  - apply sublist_length in Hsub. lia.
Qed.

Lemma column_values_sweep_table (rs : list (list value * value)) :
  Forall (fun r => length r.1 = length species) rs →
  column_values (VStr "IP_tot") (sweep_table species rs) = rs.*2.
Proof.
  intros Hrs. destruct species_nodup as (Hs & Hn & Hip & Hsi & Hnsi).
  unfold column_values. destruct rs as [|r rs].
  - simpl columns. rewrite first_position_absent; [done|].
    by apply not_elem_of_cons.
  - change (columns (sweep_table species (r :: rs)))
      with (VStr "name" :: species ++ [VStr "IP_tot"]).
    rewrite (first_position_nodup _ _ (S (length species))); [|done|].
    2:{ simpl. rewrite lookup_app_r by done. by rewrite Nat.sub_diag. }
    cbn [sweep_table rows]. rewrite <- list_fmap_compose.
    apply Forall_fmap_ext_1. eapply Forall_impl; [exact Hrs|].
    intros [cs v] Hlen. simpl in *. unfold cell_at. simpl.
    rewrite lookup_app_r by lia. by rewrite Hlen, Nat.sub_diag.
Qed.

(** Called on the empty frame of line 74 with values that all yield a
    row, the sweep returns one row per value, in the order of the
    values. *)
Lemma analyze_steady_states_rows_in_order (concs : list conc)
    (sel : list string) (w : world) :
  index (get_species (model w)) = species →
  length (sweep_rows parse_float concs sel (model w)) = length concs →
  ∃ t w', analyze concs sel (empty_frame (VStr "name" :: species)) w = Ok (t, w')
          ∧ length (rows t) = length concs
          ∧ column_values (VStr "IP_tot") t = map conc_value concs
          ∧ length (stdout w') = length (stdout w).
Proof.
  intros Hidx Hall.
  destruct (analyze_sweep_table concs sel [] w Hidx) as (w' & Hrun & Hcount).
  simpl app in Hrun. change (sweep_table species []) with
    (empty_frame (VStr "name" :: species)) in Hrun.
  eexists _, w'. split; [exact Hrun|].
  pose proof (sweep_rows_cells concs sel (model w) Hidx) as Hcells.
  pose proof (sweep_rows_values concs sel (model w)) as Hsub.
  apply sublist_same_length in Hsub; [|by rewrite !length_map, Hall].
  split; [|split; [|lia]].
  - destruct (sweep_rows parse_float concs sel (model w)); simpl in *;
      [done|by rewrite length_map].
  - by rewrite column_values_sweep_table.
Qed.

(** C4 (amended): the table assembled from the row block of a sweep starts
    with the column [name], then the species in the order of the species
    frame, then the swept-value column [IP_tot] only if the sweep appended a
    row, then the reaction parameters.  A sweep all of whose iterations are
    skipped returns the empty frame unchanged, without [IP_tot], and the
    table assembled from it has exactly one data row, the parameter values
    with NaN under [name] and the species. *)
Theorem C4_columns_of_assembled_table (concs : list conc) (sel : list string)
    (w : world) :
  index (get_species (model w)) = species →
  ∃ (block : DataFrame) (w' : world),
    analyze concs sel (empty_frame (VStr "name" :: species)) w = Ok (block, w')
    ∧ columns block
      = VStr "name" :: species
        ++ match rows block with [] => [] | _ => [VStr "IP_tot"] end
    ∧ (∀ (df : DataFrame) (w'' : world),
         basico_parameters (get_reaction_parameters (model w')) →
         assemble block w' = Ok (df, w'') →
         columns df
         = (VStr "name" :: species
            ++ match rows block with [] => [] | _ => [VStr "IP_tot"] end)
           ++ parameter_names (model w'))
    ∧ (rows block = [] →
       basico_parameters (get_reaction_parameters (model w')) →
       ∃ w'' : world,
         assemble block w'
         = Ok (mkDF (VStr "name" :: species ++ parameter_names (model w'))
                 [(VInt 0,
                   replicate (S (length species)) VNaN
                   ++ parameter_values (model w'))],
               w'')).
Proof.
  intros Hidx.
  destruct (analyze_sweep_table concs sel [] w Hidx) as (w' & Hrun & _).
  simpl app in Hrun.
  change (sweep_table species []) with (empty_frame (VStr "name" :: species)) in Hrun.
  eexists _, w'. split; [exact Hrun|].
  assert (Hcols : columns (sweep_table species (sweep_rows parse_float concs sel (model w)))
                  = VStr "name" :: species
                    ++ match rows (sweep_table species
                                     (sweep_rows parse_float concs sel (model w))) with
                       | [] => []
                       | _ => [VStr "IP_tot"]
                       end).
  { destruct (sweep_rows parse_float concs sel (model w)); simpl;
      [by rewrite app_nil_r|done]. }
  split; [exact Hcols|split].
  - intros df w'' Hshape Has.
    destruct (assemble_run _ _ _ _ Has) as (_ & p & Hp & Hc).
    rewrite handle_parameters_df_shape in Hp by done.
    injection Hp as <-.
    apply concat_axis1_columns in Hc. by rewrite Hc, Hcols.
  - intros Hrows Hshape.
    destruct (sweep_rows parse_float concs sel (model w)); [|done].
    eexists. rewrite assemble_beside_snapshot;
      [|done|constructor|by intros ?%elem_of_nil].
    done.
Qed.

End SweepTable.

(** ** The concrete model is a model *)

Lemma toy_species_columns_distinct (m : Toy.toy) : NoDup (columns (get_species m)).
Proof.
  simpl. unfold Toy.toy_get_species. destruct (Toy.toy_usable m); simpl.
  - apply NoDup_cons. split; [|apply NoDup_singleton].
    by intros ?%list_elem_of_singleton.
  - apply NoDup_singleton.
Qed.

Lemma toy_index (m : Toy.toy) :
  index (get_species m) = map (fun nx => VStr nx.1) (Toy.toy_species m).
Proof.
  simpl. unfold Toy.toy_get_species, index.
  destruct (Toy.toy_usable m); simpl; rewrite <- list_fmap_compose;
    apply list_fmap_ext; by intros ? [n x] _.
Qed.

Lemma toy_update_names (name : string) (x : Z) (l : list (string * Z)) :
  map (fun nx => VStr (float:=Z) nx.1) (Toy.update name x l)
  = map (fun nx => VStr nx.1) l.
Proof.
  unfold Toy.update. rewrite <- list_fmap_compose.
  apply list_fmap_ext. intros ? [n y] _. simpl. by destruct (decide _).
Qed.

Lemma toy_set_species_keeps_index (n : string) (x : Z) (m : Toy.toy) :
  index (get_species (set_species n x m)) = index (get_species m).
Proof. rewrite !toy_index. simpl. apply toy_update_names. Qed.

Lemma toy_run_steadystate_keeps_index (m : Toy.toy) :
  index (get_species (run_steadystate m)) = index (get_species m).
Proof. by rewrite !toy_index. Qed.

Lemma toy_basico_parameters (m : Toy.toy) :
  basico_parameters (get_reaction_parameters m).
Proof.
  split; [done|]. simpl. unfold Toy.toy_get_reaction_parameters. simpl.
  apply Forall_fmap, Forall_forall. by intros [n x] _.
Qed.

(** ** Runs on the concrete model

    The model has the species [A] and [B] and the parameters [k1 = 5] and
    [k2 = 7]. *)

(** C1 (the code at a failing input): with three concentration values, all
    floats, the script writes a table of one data row, the parameter
    values, and makes no call of the sweep; [analyze_steady_states] on the
    same values and the same empty frame would return three rows, in the
    order of the values. *)
Theorem C1_main_writes_one_row_for_three_values :
  ∃ (df : DataFrame Z) (w' : world Z Toy.toy),
    main Toy.parse_float [CFloat 1%Z; CFloat 2%Z; CFloat 3%Z]
         ["A"; "done"; "done"] Toy.world0
    = Ok (df, [], w')
    ∧ rows df = [(VInt 0, [VNaN; VNaN; VNaN; VFloat 5%Z; VFloat 7%Z])]
    ∧ calls w' = [CallGetSpecies; CallGetReactionParameters;
                  CallGetReactionParameters; CallGetReactionParameters]
    ∧ ∃ (t : DataFrame Z) (w'' : world Z Toy.toy),
        analyze_steady_states Toy.parse_float
          [CFloat 1%Z; CFloat 2%Z; CFloat 3%Z] ["A"]
          (empty_frame [VStr "name"; VStr "A"; VStr "B"]) Toy.world0
        = Ok (t, w'')
        ∧ length (rows t) = 3%nat
        ∧ column_values (VStr "IP_tot") t = [VFloat 1%Z; VFloat 2%Z; VFloat 3%Z].
Proof.
  eexists _, _. split; [vm_compute; reflexivity|].
  split; [reflexivity|]. split; [reflexivity|].
  eexists _, _. split; [vm_compute; reflexivity|].
  split; reflexivity.
Qed.

(** C6 (the code at a failing input): [name] is no species of the model,
    yet typed into the species loop it is accepted and returned as the
    selection, because the list the loop checks against is the list that
    line 73 put [name] in front of. *)
Theorem C6_name_is_accepted_as_species :
  (VStr "name" ∉ index (get_species Toy.model0))
  ∧ ∃ (df : DataFrame Z) (w' : world Z Toy.toy),
      select_species ["name"; "done"] Toy.world0 = Ok (df, ["name"], [], w')
      ∧ stdout w' = [MsgText "Please select the species for defined initial concentrations regarding to the input.xls excel file";
                     MsgText "Method default for non selected species -> see COPASI .cps method file";
                     MsgPossible [VStr "A"; VStr "B"];
                     MsgText "Type 'done' to proceed with the selection.";
                     MsgCurrentList ["name"]].
Proof.
  split.
  - vm_compute. intros Hin.
    repeat (apply elem_of_cons in Hin as [Heq|Hin]; [discriminate Heq|]).
    by apply elem_of_nil in Hin.
  - eexists _, _. split; [vm_compute; reflexivity|reflexivity].
Qed.

(** C5 (counterexample): the species loop stops on [DONE], which is not the
    token [done]; the two lines typed after it are left unread. *)
Lemma C5_species_loop_stops_on_uppercase :
  "DONE" ≠ "done"
  ∧ ∃ (df : DataFrame Z) (w' : world Z Toy.toy),
      select_species ["DONE"; "A"; "done"] Toy.world0
      = Ok (df, [], ["A"; "done"], w').
Proof. split; [discriminate|]. eexists _, _. vm_compute. reflexivity. Qed.

(** C5: the amended statement at the token [DONE]. *)
Lemma C5_witness :
  lower "DONE" = "done"
  ∧ species_loop [VStr "A"] [] ["DONE"; "A"] Toy.world0 = Ok ([], ["A"], Toy.world0)
  ∧ rates_loop Toy.parse_float [VStr "k1"] ["DONE"; "k1"] Toy.world0
    = Ok (["k1"], Toy.world0).
Proof.
  split; [reflexivity|].
  destruct (C5_both_loops_stop_on_any_casing Toy.parse_float "DONE"
              [VStr "A"] [VStr "k1"] [] ["A"] Toy.world0) as [Hs _].
  destruct (C5_both_loops_stop_on_any_casing Toy.parse_float "DONE"
              [VStr "A"] [VStr "k1"] [] ["k1"] Toy.world0) as [_ Hr].
  split; [apply Hs|apply Hr]; reflexivity.
Defined.

(** C10 (counterexample): after [A], [A], [done] the selection is the list
    with [A] twice, not the list with [A] once: the second entry is stored
    again. *)
Lemma C10_selection_holds_the_name_twice :
  ∃ (df : DataFrame Z) (w' : world Z Toy.toy),
    select_species ["A"; "A"; "done"] Toy.world0 = Ok (df, ["A"; "A"], [], w')
    ∧ ["A"; "A"] ≠ ["A"]
    ∧ ¬ NoDup ["A"; "A"].
Proof.
  eexists _, _. split; [vm_compute; reflexivity|]. split; [discriminate|].
  intros Hnd. apply NoDup_cons in Hnd as [Hn _]. apply Hn. constructor.
Qed.

(** C10: the amended statement on the names of the concrete model. *)
Lemma C10_witness :
  ∃ w' : world Z Toy.toy,
    cli_initial_conc (get_species Toy.model0) [VStr "name"; VStr "A"; VStr "B"]
      ["A"; "A"; "done"] Toy.world0
    = Ok (["A"; "A"], [], w')
    ∧ (list_to_set ["A"; "A"] : gset string) = {[ "A" ]}.
Proof.
  apply (C10_duplicate_entry_is_appended_again (get_species Toy.model0)
           [VStr "name"; VStr "A"; VStr "B"] "A" [] Toy.world0).
  - apply elem_of_cons. right. apply elem_of_cons. by left.
  - discriminate.
Defined.

(** C9: the parameter [k1], two lines that do not parse, then [9]. *)
Lemma C9_witness :
  rates_loop Toy.parse_float [VStr "k1"; VStr "k2"]
    ["k1"; "x"; "abc"; "9"; "done"] Toy.world0
  = Ok ([],
        World (Toy.mkToy [("A", 1%Z); ("B", 2%Z)] [("k1", 9%Z); ("k2", 7%Z)] true)
              [CallSetReactionParameters "k1" 9%Z]
              [MsgChanging "k1"; MsgInvalidFloat; MsgInvalidFloat]).
Proof.
  destruct (C9_numeric_entry_repeats_until_float Toy.parse_float
              [VStr "k1"; VStr "k2"] "k1" ["x"; "abc"] "9" 9%Z ["done"] Toy.world0)
    as (Hrun & _).
  - discriminate.
  - apply elem_of_cons. by left.
  - repeat constructor.
  - reflexivity.
  - simpl app in Hrun. rewrite Hrun. reflexivity.
Defined.

(** C7 (counterexample): the sweep of [3], [x], [4] and the sweep of [3],
    [4] both return two rows; the first is not one row short of the
    second. *)
Lemma C7_row_count_is_not_reduced :
  ∃ (t1 : DataFrame Z) (w1 : world Z Toy.toy)
    (t2 : DataFrame Z) (w2 : world Z Toy.toy),
    coerce_float Toy.parse_float (CStr "x") = Raise ValueError
    ∧ analyze_steady_states Toy.parse_float
        [CFloat 3%Z; CStr "x"; CStr "4"] ["A"]
        (empty_frame [VStr "name"; VStr "A"; VStr "B"]) Toy.world0
      = Ok (t1, w1)
    ∧ analyze_steady_states Toy.parse_float [CFloat 3%Z; CStr "4"] ["A"]
        (empty_frame [VStr "name"; VStr "A"; VStr "B"]) Toy.world0
      = Ok (t2, w2)
    ∧ length (rows t1) = 2%nat
    ∧ length (rows t2) = 2%nat
    ∧ S (length (rows t1)) ≠ length (rows t2).
Proof.
  eexists _, _, _, _. split; [reflexivity|].
  split; [vm_compute; reflexivity|]. split; [vm_compute; reflexivity|].
  split; [reflexivity|]. split; [reflexivity|]. simpl. lia.
Qed.

(** C7: the value [x] between two values that convert. *)
Lemma C7_witness :
  coerce_float Toy.parse_float (CStr "x") = Raise ValueError
  ∧ ∃ w1 : world Z Toy.toy,
      analyze_steady_states Toy.parse_float
        [CFloat 3%Z; CStr "x"; CStr "4"] ["A"]
        (empty_frame [VStr "name"; VStr "A"; VStr "B"]) Toy.world0
      = Ok (mkDF [VStr "name"; VStr "A"; VStr "B"; VStr "IP_tot"]
              [(VStr "concentration", [VNaN; VFloat 3%Z; VFloat 2%Z; VFloat 3%Z]);
               (VStr "concentration", [VNaN; VFloat 4%Z; VFloat 2%Z; VStr "4"])],
            w1)
      ∧ calls w1 = [CallSetSpecies "A" 3%Z; CallRunSteadystate; CallGetSpecies;
                    CallSetSpecies "A" 4%Z; CallRunSteadystate; CallGetSpecies]
      ∧ length (stdout w1) = 1%nat.
Proof.
  split; [reflexivity|].
  destruct (C7_unconvertible_value_is_skipped Toy.parse_float
              [CFloat 3%Z] (CStr "x") [CStr "4"] ["A"]
              (empty_frame [VStr "name"; VStr "A"; VStr "B"]) Toy.world0)
    as (_ & _ & _ & _ & Hrow); [reflexivity|].
  edestruct Hrow as (w1 & Hrun & _ & Hcalls & Hout); [vm_compute; reflexivity|].
  exists w1. split; [exact Hrun|]. split; [exact Hcalls|exact Hout].
Defined.

(** C8 (counterexample): on a model with a species called [name], the
    frame of line 74 holds that label twice.  The read of the first value
    fails and is skipped; the row of the second value cannot be appended,
    and the exception of the append leaves the sweep. *)
Lemma C8_append_exception_escapes :
  index (get_species (Toy.mkToy [("name", 1%Z); ("A", 2%Z)] [("k1", 5%Z)] true))
  = [VStr "name"; VStr "A"]
  ∧ coerce_float Toy.parse_float (CFloat (-1)%Z) = Ok (-1)%Z
  ∧ getitem_list [VStr "concentration"]
      (get_species
         (model (solved ["A"] (-1)%Z
                   (World (Toy.mkToy [("name", 1%Z); ("A", 2%Z)] [("k1", 5%Z)] true)
                      [] []))))
    = Raise KeyError
  ∧ analyze_steady_states Toy.parse_float [CFloat (-1)%Z; CFloat 3%Z] ["A"]
      (empty_frame [VStr "name"; VStr "name"; VStr "A"])
      (World (Toy.mkToy [("name", 1%Z); ("A", 2%Z)] [("k1", 5%Z)] true) [] [])
    = Raise InvalidIndexError.
Proof.
  split; [reflexivity|]. split; [reflexivity|]. split; [reflexivity|].
  vm_compute. reflexivity.
Qed.

(** C8: the value [-1] leaves the concrete model without a usable result. *)
Lemma C8_witness :
  coerce_float Toy.parse_float (CFloat (-1)%Z) = Ok (-1)%Z
  ∧ getitem_list [VStr "concentration"]
      (get_species (model (solved ["A"] (-1)%Z Toy.world0)))
    = Raise KeyError
  ∧ analyze_steady_states Toy.parse_float [CFloat (-1)%Z] ["A"]
      (empty_frame [VStr "name"; VStr "A"; VStr "B"]) Toy.world0
    = Ok (empty_frame [VStr "name"; VStr "A"; VStr "B"],
          World (Toy.mkToy [("A", (-1)%Z); ("B", 2%Z)] [("k1", 5%Z); ("k2", 7%Z)]
                   false)
            [CallSetSpecies "A" (-1)%Z; CallRunSteadystate; CallGetSpecies]
            [MsgSkipRead (CFloat (-1)%Z)])
  ∧ analyze_steady_states Toy.parse_float [CFloat (-1)%Z; CFloat 4%Z] ["A"]
      (empty_frame [VStr "name"; VStr "A"; VStr "B"]) Toy.world0
    = analyze_steady_states Toy.parse_float [CFloat 4%Z] ["A"]
        (empty_frame [VStr "name"; VStr "A"; VStr "B"])
        (print (MsgSkipRead (CFloat (-1)%Z)) (solved ["A"] (-1)%Z Toy.world0)).
Proof.
  split; [reflexivity|]. split; [reflexivity|].
  destruct (C8_read_failure_is_skipped Toy.parse_float (CFloat (-1)%Z) (-1)%Z
              [CFloat 4%Z] ["A"] (empty_frame [VStr "name"; VStr "A"; VStr "B"])
              Toy.world0) as (Hone & Hnext & _); [reflexivity|reflexivity|].
  split; [exact Hone|exact Hnext].
Defined.

(** C2: a run that overrides [k1] with [9]. *)
Lemma C2_witness :
  ∃ (df : DataFrame Z) (w' : world Z Toy.toy),
    main Toy.parse_float [CFloat 1%Z; CFloat 2%Z]
         ["A"; "done"; "k1"; "9"; "done"] Toy.world0
    = Ok (df, [], w')
    ∧ extends_without_sweep Toy.world0 w'
    ∧ df = mkDF [VStr "name"; VStr "A"; VStr "B"; VStr "k1"; VStr "k2"]
                [(VInt 0, [VNaN; VNaN; VNaN; VFloat 9%Z; VFloat 7%Z])].
Proof.
  eexists _, _. split; [vm_compute; reflexivity|].
  destruct (C2_main_never_sweeps Toy.parse_float [CFloat 1%Z; CFloat 2%Z]
              ["A"; "done"; "k1"; "9"; "done"] Toy.world0) as [_ Hrun].
  edestruct Hrun as (Hext & _ & Hshape); [vm_compute; reflexivity|].
  split; [exact Hext|].
  rewrite Hshape by apply toy_basico_parameters. reflexivity.
Defined.


(** C4 (counterexample): after a sweep of one value that yields a row, the
    assembled table starts with the column [name], not with the species;
    after a sweep whose only iteration is skipped, the assembled table has
    no swept-value column and has one data row, not none. *)
Lemma C4_name_column_first_and_one_row :
  (∃ (block : DataFrame Z) (w1 : world Z Toy.toy)
     (df : DataFrame Z) (w2 : world Z Toy.toy),
     analyze_steady_states Toy.parse_float [CFloat 3%Z] ["A"]
       (empty_frame [VStr "name"; VStr "A"; VStr "B"]) Toy.world0
     = Ok (block, w1)
     ∧ assemble block w1 = Ok (df, w2)
     ∧ columns df = [VStr "name"; VStr "A"; VStr "B"; VStr "IP_tot";
                     VStr "k1"; VStr "k2"]
     ∧ columns df ≠ [VStr "A"; VStr "B"; VStr "IP_tot"; VStr "k1"; VStr "k2"])
  ∧ (∃ (block : DataFrame Z) (w1 : world Z Toy.toy)
       (df : DataFrame Z) (w2 : world Z Toy.toy),
       analyze_steady_states Toy.parse_float [CStr "x"] ["A"]
         (empty_frame [VStr "name"; VStr "A"; VStr "B"]) Toy.world0
       = Ok (block, w1)
       ∧ rows block = []
       ∧ assemble block w1 = Ok (df, w2)
       ∧ columns df = [VStr "name"; VStr "A"; VStr "B"; VStr "k1"; VStr "k2"]
       ∧ columns df ≠ [VStr "A"; VStr "B"; VStr "IP_tot"; VStr "k1"; VStr "k2"]
       ∧ length (rows df) = 1%nat).
Proof.
  split.
  - eexists _, _, _, _. split; [vm_compute; reflexivity|].
    split; [vm_compute; reflexivity|]. split; [reflexivity|discriminate].
  - eexists _, _, _, _. split; [vm_compute; reflexivity|].
    split; [reflexivity|]. split; [vm_compute; reflexivity|].
    split; [reflexivity|]. split; [discriminate|reflexivity].
Qed.

(** C4: the amended statement on a sweep of the concrete model, one value
    skipped and one yielding a row. *)
Lemma C4_witness :
  ∃ (block : DataFrame Z) (w' : world Z Toy.toy),
    analyze_steady_states Toy.parse_float [CStr "x"; CFloat 3%Z] ["A"]
      (empty_frame [VStr "name"; VStr "A"; VStr "B"]) Toy.world0
    = Ok (block, w')
    ∧ columns block
      = VStr "name" :: [VStr "A"; VStr "B"]
        ++ match rows block with [] => [] | _ => [VStr "IP_tot"] end.
Proof.
  destruct (C4_columns_of_assembled_table Toy.parse_float [VStr "A"; VStr "B"])
    with (concs := [CStr "x"; CFloat 3%Z]) (sel := ["A"]) (w := Toy.world0)
    as (block & w' & Hrun & Hcols & _).
  - repeat (apply NoDup_cons; split;
            [intros Hin;
             repeat (apply elem_of_cons in Hin as [Heq|Hin]; [discriminate Heq|]);
             by apply elem_of_nil in Hin|]).
    apply NoDup_nil_2.
  - apply toy_species_columns_distinct.
  - apply toy_set_species_keeps_index.
  - apply toy_run_steadystate_keeps_index.
  - reflexivity.
  - exists block, w'. split; [exact Hrun|exact Hcols].
Defined.

(** * Further properties of the script's functions *)

(** ** The prompt loops *)

Section LoopExtras.
Context {float : Type} `{!EqDecision float}.
Context {M : Type} `{!Facade float M}.
Variable parse_float : string → option float.

Abbreviation value := (value float).
Abbreviation DataFrame := (DataFrame float).
Abbreviation world := (world float M).

Lemma species_loop_eof (names : list value) (inp : list string) :
  ∀ (acc : list string) (w : world),
    Forall (fun t => lower t ≠ "done") inp →
    species_loop names acc inp w = Raise EOFError.
Proof.
  induction inp as [|t inp IH]; intros acc w Hno; [done|].
  apply Forall_cons in Hno as [Ht Hno]. simpl.
  rewrite decide_False by done. destruct (decide _); by apply IH.
Qed.

Lemma species_loop_selection (names : list value) (inp : list string) :
  ∀ (acc : list string) (w : world) sel inp' w',
    species_loop names acc inp w = Ok (sel, inp', w') →
    Forall (fun s => VStr s ∈ names) acc →
    Forall (fun s => VStr s ∈ names) sel ∧ ∃ pre, inp = pre ++ inp'.
Proof.
  induction inp as [|t inp IH]; intros acc w sel inp' w'; simpl; [done|].
  destruct (decide _).
  { intros [= <- <- <-] Hacc. split; [done|]. by exists [t]. }
  destruct (decide _) as [Hn|Hn]; intros Hrun Hacc.
  - destruct (IH _ _ _ _ _ Hrun Hacc) as (Hsel & pre & ->).
    split; [done|]. by exists (t :: pre).
  - apply dec_stable in Hn.
    destruct (IH _ _ _ _ _ Hrun) as (Hsel & pre & ->).
    { apply Forall_app. split; [done|]. by constructor. }
    split; [done|]. by exists (t :: pre).
Qed.

(** X1: [cli_initial_conc] returns, in the order typed and with repeats,
    exactly the lines before the first sentinel that are in the list of
    names it was given; it reads up to and including that sentinel, prints
    its four opening lines and then one line per line read (the selection so
    far, or the rejection), and leaves the model and the calls alone. *)
Theorem X1_cli_initial_conc_returns_accepted_lines (species_df : DataFrame)
    (names : list value) (toks : list string) (d : string)
    (rest : list string) (w : world) :
  Forall (fun t => lower t ≠ "done") toks →
  lower d = "done" →
  cli_initial_conc species_df names (toks ++ d :: rest) w
  = Ok (filter (fun t => VStr t ∈ names) toks, rest,
        World (model w) (calls w)
          (stdout w
           ++ [MsgText "Please select the species for defined initial concentrations regarding to the input.xls excel file";
               MsgText "Method default for non selected species -> see COPASI .cps method file";
               MsgPossible (index species_df);
               MsgText "Type 'done' to proceed with the selection."]
           ++ species_messages names [] toks))
  ∧ length (species_messages names [] toks) = length toks.
Proof.
  intros Hno Hd. split.
  - unfold cli_initial_conc. rewrite species_loop_tokens by done.
    simpl. by rewrite <- !app_assoc.
  - clear. generalize (@nil string).
    induction toks as [|t toks IH]; intros acc; [done|].
    simpl. destruct (decide _); simpl; by rewrite IH.
Qed.

(** X2: when the input ends before any line that lower-cases to [done],
    [cli_initial_conc] raises [EOFError]: whatever was selected is lost. *)
Theorem X2_cli_initial_conc_without_sentinel (species_df : DataFrame)
    (names : list value) (inp : list string) (w : world) :
  Forall (fun t => lower t ≠ "done") inp →
  cli_initial_conc species_df names inp w = Raise EOFError.
Proof. intros Hno. unfold cli_initial_conc. by apply species_loop_eof. Qed.

(** X3: lines 70 to 77 return the empty frame whose columns are [name] and
    the species of the model, and a selection every entry of which is
    [name] or a species of the model; they make one [get_species] call,
    leave the model as it was, and hand on a suffix of the input. *)
Theorem X3_select_species_result (inp : list string) (w : world)
    (df : DataFrame) (sel inp' : list string) (w' : world) :
  select_species inp w = Ok (df, sel, inp', w') →
  df = empty_frame (VStr "name" :: index (get_species (model w)))
  ∧ Forall (fun s => s = "name" ∨ VStr s ∈ index (get_species (model w))) sel
  ∧ model w' = model w
  ∧ calls w' = calls w ++ [CallGetSpecies]
  ∧ ∃ pre, inp = pre ++ inp'.
Proof.
  unfold select_species, cli_initial_conc. simpl.
  destruct (species_loop _ _ _ _) as [[[sel0 inp0] w0]|] eqn:Hloop; simpl; [|done].
  intros [= <- <- <- <-].
  destruct (species_loop_selection _ _ _ _ _ _ _ Hloop) as (Hsel & Hpre);
    [constructor|].
  apply species_loop_frame in Hloop as [Hm Hc].
  split; [done|]. split; [|by rewrite Hm, Hc].
  eapply Forall_impl; [exact Hsel|]. intros s Hs.
  apply elem_of_cons in Hs as [[= ->]|Hs]; [by left|by right].
Qed.

Lemma override_from_cons (rates : list value) (t : string) (inp : list string)
    (c : call float) :
  override_from parse_float rates inp c →
  override_from parse_float rates (t :: inp) c.
Proof.
  destruct c; simpl; try done.
  intros (Hn & line & Hl & Hp). split; [done|]. exists line.
  split; [by right|done].
Qed.

Lemma rates_loop_overrides (rates : list value) (inp : list string) :
  (∀ (w : world) inp' w',
     rates_loop parse_float rates inp w = Ok (inp', w') →
     ∃ cs, calls w' = calls w ++ cs
           ∧ Forall (override_from parse_float rates inp) cs)
  ∧ (∀ name (w : world) inp' w',
       VStr name ∈ rates →
       numeric_entry parse_float rates name inp w = Ok (inp', w') →
       ∃ cs, calls w' = calls w ++ cs
             ∧ Forall (override_from parse_float rates inp) cs).
Proof.
  induction inp as [|t inp [IHo IHi]]; [by split|].
  assert (Hmono : ∀ cs, Forall (override_from parse_float rates inp) cs →
                        Forall (override_from parse_float rates (t :: inp)) cs).
  { intros cs Hcs. eapply Forall_impl; [exact Hcs|].
    intros c. apply override_from_cons. }
  split.
  - intros w inp' w'. rewrite rates_loop_cons.
    destruct (decide _).
    { intros [= <- <-]. exists []. by rewrite app_nil_r. }
    destruct (decide _) as [Hn|Hn]; intros Hrun.
    + apply IHo in Hrun as (cs & Hcs & Hall). exists cs. split; [done|by apply Hmono].
    + apply dec_stable in Hn.
      apply IHi in Hrun as (cs & Hcs & Hall); [|done].
      exists cs. split; [done|by apply Hmono].
  - intros name w inp' w' Hname. rewrite numeric_entry_cons.
    destruct (parse_float t) as [x|] eqn:Hp; intros Hrun.
    + apply IHo in Hrun as (cs & Hcs & Hall). simpl in Hcs.
      exists (CallSetReactionParameters name x :: cs).
      split; [by rewrite Hcs, <- app_assoc|].
      constructor; [|by apply Hmono].
      split; [done|]. exists t. split; [by left|done].
    + apply IHi in Hrun as (cs & Hcs & Hall); [|done].
      exists cs. split; [done|by apply Hmono].
Qed.

(** X4: the only calls [cli_set_rates] makes are its two
    [get_reaction_parameters] calls, first and last, and in between
    [set_reaction_parameters] calls each of which names a parameter of the
    frame read at the start and passes the float of a line of the input:
    nothing is ever set under a name the model does not list. *)
Theorem X4_cli_set_rates_overrides_listed_names (inp : list string) (w : world)
    (inp' : list string) (w' : world) :
  cli_set_rates parse_float inp w = Ok (inp', w') →
  ∃ sets : list (call float),
    calls w' = calls w ++ [CallGetReactionParameters] ++ sets
                       ++ [CallGetReactionParameters]
    ∧ Forall (override_from parse_float
                (index (get_reaction_parameters (model w))) inp) sets.
Proof.
  unfold cli_set_rates. simpl.
  destruct (rates_loop _ _ _ _) as [[inp1 w1]|] eqn:Hloop; simpl; [|done].
  intros [= <- <-].
  apply (proj1 (rates_loop_overrides _ _)) in Hloop as (cs & Hcs & Hall).
  simpl in Hcs. exists cs. split; [|done].
  simpl. rewrite Hcs. by rewrite <- !app_assoc.
Qed.

Lemma rates_loop_unknown (rates : list value) (toks : list string) :
  ∀ (d : string) (rest : list string) (w : world),
    Forall (fun t => lower t ≠ "done" ∧ VStr t ∉ rates) toks →
    lower d = "done" →
    rates_loop parse_float rates (toks ++ d :: rest) w
    = Ok (rest, World (model w) (calls w)
                  (stdout w ++ replicate (length toks) MsgNotRate)).
Proof.
  induction toks as [|t toks IH]; intros d rest w Hall Hd.
  - simpl app. rewrite rates_loop_cons, decide_True by done.
    simpl. rewrite app_nil_r. by destruct w.
  - apply Forall_cons in Hall as [[Ht Hn] Hall].
    simpl app. rewrite rates_loop_cons, decide_False by done.
    rewrite decide_True by done. rewrite IH by done.
    simpl. by rewrite <- app_assoc.
Qed.

(** X5: lines that are not parameter names are each rejected with the
    message and the next line is read as a name again; when nothing but
    such lines comes before the sentinel (or nothing at all),
    [cli_set_rates] changes no parameter: the model is as before and the
    only calls are the two [get_reaction_parameters]. *)
Theorem X5_cli_set_rates_rejects_unknown_names (toks : list string) (d : string)
    (rest : list string) (w : world) :
  Forall (fun t => lower t ≠ "done"
                   ∧ VStr t ∉ index (get_reaction_parameters (model w))) toks →
  lower d = "done" →
  ∃ w' : world,
    cli_set_rates parse_float (toks ++ d :: rest) w = Ok (rest, w')
    ∧ model w' = model w
    ∧ calls w' = calls w ++ [CallGetReactionParameters; CallGetReactionParameters]
    ∧ ∃ opening closing : list (message float),
        stdout w' = stdout w ++ opening
                    ++ replicate (length toks) MsgNotRate ++ closing
        ∧ length opening = 9%nat ∧ length closing = 3%nat.
Proof.
  intros Hall Hd. unfold cli_set_rates. simpl.
  rewrite rates_loop_unknown by done. simpl.
  eexists. split; [reflexivity|]. simpl.
  split; [done|]. split; [by rewrite <- app_assoc|].
  eexists (_ :: _ :: _ :: _ :: _ :: _ :: _ :: _ :: [_]), (_ :: _ :: [_]).
  split; [|done]. rewrite <- !app_assoc. simpl. reflexivity.
Qed.

Lemma rates_loop_eof (rates : list value) (inp : list string) :
  Forall (fun t => lower t ≠ "done") inp →
  (∀ w : world, rates_loop parse_float rates inp w = Raise EOFError)
  ∧ (∀ name (w : world),
       numeric_entry parse_float rates name inp w = Raise EOFError).
Proof.
  induction inp as [|t inp IH]; intros Hno; [by split|].
  apply Forall_cons in Hno as [Ht Hno]. destruct (IH Hno) as [IHo IHi].
  split.
  - intros w. rewrite rates_loop_cons, decide_False by done.
    destruct (decide _); [apply IHo|apply IHi].
  - intros name w. rewrite numeric_entry_cons.
    destruct (parse_float t); [apply IHo|apply IHi].
Qed.

End LoopExtras.

(** ** The sweep: calls and table *)

Section SweepExtras.
Context {float : Type} `{!EqDecision float}.
Context {M : Type} `{!Facade float M}.
Variable parse_float : string → option float.

Abbreviation value := (value float).
Abbreviation DataFrame := (DataFrame float).
Abbreviation world := (world float M).
Abbreviation conc := (conc float).
Abbreviation analyze := (analyze_steady_states parse_float).

(** X6: when the value converts, [set_init_conc] makes one [set_species]
    call per entry of the selection, in the order of the selection and all
    with the converted float (an entry listed twice is set twice, an empty
    selection makes no call), and prints nothing. *)
Theorem X6_set_init_conc_sets_each_entry (sel : list string) (c : conc)
    (x : float) (w : world) :
  coerce_float parse_float c = Ok x →
  ∃ w' : world,
    set_init_conc parse_float sel c w = Ok w'
    ∧ calls w' = calls w ++ map (fun spec => CallSetSpecies spec x) sel
    ∧ model w' = foldl (fun m spec => set_species spec x m) (model w) sel
    ∧ stdout w' = stdout w.
Proof.
  intros Hc. exists (apply_concentration sel x w).
  split; [by apply set_init_conc_ok|].
  destruct (apply_concentration_effects sel x w) as (Hm & Hcalls & Hout).
  by rewrite Hm, Hcalls, Hout.
Qed.

Lemma analyze_calls (concs : list conc) (sel : list string) :
  ∀ (df : DataFrame) (w : world) (t : DataFrame) (w' : world),
    analyze concs sel df w = Ok (t, w') →
    calls w' = calls w ++ sweep_calls parse_float concs sel.
Proof.
  induction concs as [|c concs IH]; intros df w t w'.
  { intros [= <- <-]. simpl. by rewrite app_nil_r. }
  simpl sweep_calls.
  destruct (iteration_cases parse_float c sel df w)
    as [Hc|x Hc Hr|x data df' Hc Hr Ha|x data Hc Hr Ha].
  - rewrite analyze_skip_conversion by done. rewrite Hc. intros Hrun.
    by apply IH in Hrun.
  - rewrite (analyze_skip_read parse_float c x) by done. rewrite Hc. intros Hrun.
    apply IH in Hrun. cbn [print calls] in Hrun.
    rewrite (proj1 (proj2 (solved_effects sel x w))) in Hrun.
    by rewrite Hrun, <- !app_assoc.
  - rewrite (analyze_success parse_float c x _ sel df data df') by done.
    rewrite Hc. intros Hrun. apply IH in Hrun.
    rewrite (proj1 (proj2 (solved_effects sel x w))) in Hrun.
    by rewrite Hrun, <- !app_assoc.
  - by rewrite (analyze_append_raises parse_float c x _ sel df data InvalidIndexError).
Qed.

(** X7: a sweep that returns has made, for each value that converts and in
    the order of the values, the [set_species] calls of the selection, then
    one [run_steadystate], then one [get_species], and nothing for a value
    that does not convert; it never reads or sets a reaction parameter. *)
Theorem X7_analyze_steady_states_calls (concs : list conc) (sel : list string)
    (df : DataFrame) (w : world) (t : DataFrame) (w' : world) :
  analyze concs sel df w = Ok (t, w') →
  calls w' = calls w ++ sweep_calls parse_float concs sel
  ∧ Forall (fun c => c ≠ CallGetReactionParameters
                     ∧ ∀ name x, c ≠ CallSetReactionParameters name x)
           (sweep_calls parse_float concs sel).
Proof.
  intros Hrun. split; [by eapply analyze_calls|].
  clear. induction concs as [|c concs IH]; [constructor|].
  simpl. destruct (coerce_float parse_float c) as [x|e]; [|done].
  apply Forall_app. split.
  - apply Forall_fmap, Forall_forall. by intros spec _.
  - by repeat constructor.
Qed.

(** The species universe, with names apart from the two labels the script
    adds; a model whose species frame keeps its labels. *)
Variable species : list value.
Hypothesis labels_distinct : NoDup (VStr "name" :: species ++ [VStr "IP_tot"]).
Hypothesis species_columns_distinct : ∀ m : M, NoDup (columns (get_species m)).
Hypothesis set_species_keeps_index :
  ∀ (n : string) (x : float) (m : M),
    index (get_species (set_species n x m)) = index (get_species m).
Hypothesis run_steadystate_keeps_index :
  ∀ m : M, index (get_species (run_steadystate m)) = index (get_species m).

(** X8: called on the empty frame of line 74 with values every one of which
    yields a row, [analyze_steady_states] returns exactly one row per value,
    the swept values standing under [IP_tot] in the order of the input, and
    prints nothing. *)
Theorem X8_analyze_steady_states_keeps_input_order (concs : list conc)
    (sel : list string) (w : world) :
  index (get_species (model w)) = species →
  length (sweep_rows parse_float concs sel (model w)) = length concs →
  ∃ (t : DataFrame) (w' : world),
    analyze concs sel (empty_frame (VStr "name" :: species)) w = Ok (t, w')
    ∧ length (rows t) = length concs
    ∧ column_values (VStr "IP_tot") t = map conc_value concs
    ∧ length (stdout w') = length (stdout w).
Proof. intros Hidx Hall. by apply analyze_steady_states_rows_in_order. Qed.

(** X9: called on the empty frame of line 74, [analyze_steady_states]
    raises nothing and returns the table of the values that yield a row, in
    their order: each row is labelled [concentration] and holds NaN under
    [name], the [concentration] column read after that value's solve under
    the species, and under [IP_tot] the value as it was given (a string
    stays a string, though the species were set to its float); every value
    that yields no row has one line printed instead. *)
Theorem X9_analyze_steady_states_table (concs : list conc) (sel : list string)
    (w : world) :
  index (get_species (model w)) = species →
  ∃ w' : world,
    analyze concs sel (empty_frame (VStr "name" :: species)) w
    = Ok (sweep_table species (sweep_rows parse_float concs sel (model w)), w')
    ∧ (length (stdout w') + length (sweep_rows parse_float concs sel (model w))
       = length (stdout w) + length concs)%nat
    ∧ Forall (fun r => length r.1 = length species)
             (sweep_rows parse_float concs sel (model w))
    ∧ (sweep_rows parse_float concs sel (model w)).*2
      `sublist_of` map conc_value concs.
Proof.
  intros Hidx.
  destruct (analyze_sweep_table parse_float species labels_distinct
              species_columns_distinct set_species_keeps_index
              run_steadystate_keeps_index concs sel [] w Hidx) as (w' & Hrun & Hcount).
  exists w'. split; [exact Hrun|]. split; [exact Hcount|]. split.
  - by apply sweep_rows_cells.
  - apply sweep_rows_values.
Qed.

(** X10: line 226 applied to what the sweep returned succeeds only while
    the sweep has at most one row (the table then has one row more, the
    parameter values); with two rows or more, all labelled [concentration],
    [concat] raises [InvalidIndexError] and no table is made. *)
Theorem X10_assemble_after_sweep (concs : list conc) (sel : list string)
    (w : world) (block : DataFrame) (w' : world) :
  index (get_species (model w)) = species →
  analyze concs sel (empty_frame (VStr "name" :: species)) w = Ok (block, w') →
  basico_parameters (get_reaction_parameters (model w')) →
  ((length (rows block) ≤ 1)%nat →
   ∃ (df : DataFrame) (w'' : world),
     assemble block w' = Ok (df, w'')
     ∧ length (rows df) = S (length (rows block)))
  ∧ ((2 ≤ length (rows block))%nat →
     assemble block w' = Raise InvalidIndexError).
Proof.
  intros Hidx Hrun Hshape.
  destruct (analyze_sweep_table parse_float species labels_distinct
              species_columns_distinct set_species_keeps_index
              run_steadystate_keeps_index concs sel [] w Hidx) as (w1 & Hrun1 & _).
  simpl app in Hrun1.
  change (sweep_table species []) with (empty_frame (VStr "name" :: species)) in Hrun1.
  rewrite Hrun in Hrun1. injection Hrun1 as -> <-.
  destruct (sweep_rows parse_float concs sel (model w)) as [|r1 [|r2 rs]].
  - split; [|simpl; lia]. intros _.
    eexists _, _. rewrite assemble_beside_snapshot;
      [|done|constructor|by intros ?%elem_of_nil].
    split; [reflexivity|done].
  - split; [|simpl; lia]. intros _.
    eexists _, _. rewrite assemble_beside_snapshot; [|done| |].
    + split; [reflexivity|done].
    + apply NoDup_singleton.
    + by intros [=]%list_elem_of_singleton.
  - split; [simpl; lia|]. intros _.
    by apply assemble_sweep_rows_raises.
Qed.

End SweepExtras.

(** ** The parameter snapshot and the whole script *)

Section ProgramExtras.
Context {float : Type} `{!EqDecision float}.
Context {M : Type} `{!Facade float M}.
Variable parse_float : string → option float.

Abbreviation value := (value float).
Abbreviation DataFrame := (DataFrame float).
Abbreviation world := (world float M).
Abbreviation conc := (conc float).

Lemma positions_where_valid (p : value → bool) (cols : list value) :
  ∀ (k j : nat),
    j ∈ positions_where p k cols →
    ∃ x, cols !! (j - k)%nat = Some x ∧ (k ≤ j)%nat.
Proof.
  induction cols as [|c cols IH]; intros k j Hj; [by apply elem_of_nil in Hj|].
  simpl in Hj. destruct (p c).
  - apply elem_of_cons in Hj as [->|Hj].
    + exists c. rewrite Nat.sub_diag. by split.
    + destruct (IH _ _ Hj) as (x & Hx & Hle). exists x. split; [|lia].
      replace (j - k)%nat with (S (j - S k)) by lia. done.
  - destruct (IH _ _ Hj) as (x & Hx & Hle). exists x. split; [|lia].
    replace (j - k)%nat with (S (j - S k)) by lia. done.
Qed.

Lemma take_columns_labels (keys : list value) (df : DataFrame) (c : value) :
  c ∈ columns (take_columns
                 (concat (map (fun k => positions k (columns df)) keys)) df) →
  c ∈ columns df.
Proof.
  unfold take_columns. simpl. intros Hc.
  apply list_elem_of_fmap in Hc as (j & -> & Hj).
  apply list_elem_of_In, in_concat in Hj as (js & Hjs & Hj).
  apply in_map_iff in Hjs as (k & <- & _).
  apply list_elem_of_In in Hj.
  destruct (positions_where_valid _ _ _ _ Hj) as (x & Hx & _).
  rewrite Nat.sub_0_r in Hx. unfold cell_at. rewrite Hx. simpl.
  by eapply list_elem_of_lookup_2.
Qed.

Lemma first_position_last (c : value) (cols : list value) :
  c ∉ cols → first_position c (cols ++ [c]) = Some (length cols).
Proof.
  intros Hc. unfold first_position, positions.
  assert (Hgen : ∀ k, positions_where (fun x => bool_decide (x = c)) k (cols ++ [c])
                      = [(k + length cols)%nat]).
  { induction cols as [|y cols IH]; intros k; simpl.
    - rewrite bool_decide_eq_true_2 by done. by rewrite Nat.add_0_r.
    - apply not_elem_of_cons in Hc as [Hne Hc].
      rewrite bool_decide_eq_false_2 by done. rewrite IH by done.
      f_equal. lia. }
  by rewrite Hgen.
Qed.

Lemma handle_parameters_df_missing_column (w : world) (k : string) :
  VStr "rates" ∉ columns (get_reaction_parameters (model w)) →
  k ∈ ["type"; "mapped_to"; "reaction"] →
  VStr k ∉ columns (get_reaction_parameters (model w)) →
  handle_parameters_df w = Raise KeyError.
Proof.
  intros Hrates Hk Hmiss. unfold handle_parameters_df. simpl.
  destruct (get_reaction_parameters (model w)) as [cols rs]. simpl in *.
  unfold setitem. cbn [columns rows].
  destruct (decide (VStr "rates" ∈ cols)) as [|_]; [done|].
  unfold reset_index_drop. cbn [columns rows].
  unfold move_to_front. rewrite first_position_last by done.
  rewrite delete_middle, app_nil_r.
  cbn [mbind res_bind].
  set (df2 := mkDF (cols ++ [VStr "rates"]) _).
  assert (Hget : getitem_list (VStr "rates" :: cols) df2
                 = Ok (take_columns
                         (concat (map (fun k => positions k (columns df2))
                                      (VStr "rates" :: cols))) df2)).
  { unfold getitem_list.
    assert (Hall : forallb (fun k0 => bool_decide (k0 ∈ columns df2))
                     (VStr "rates" :: cols) = true).
    { apply forallb_forall. intros c Hc. apply bool_decide_eq_true_2.
      apply list_elem_of_In in Hc. simpl.
      apply elem_of_cons in Hc as [->|Hc]; apply elem_of_app; [right|left];
        [constructor|done]. }
    by rewrite Hall. }
  rewrite Hget. cbn [mbind res_bind]. set (df3 := take_columns _ df2).
  assert (Hno : VStr k ∉ columns df3).
  { intros Hin. apply take_columns_labels in Hin. simpl in Hin.
    apply elem_of_app in Hin as [Hin|Hin]; [done|].
    apply list_elem_of_singleton in Hin as [= ->].
    repeat (apply elem_of_cons in Hk as [Hk|Hk]; [discriminate Hk|]).
    by apply elem_of_nil in Hk. }
  unfold drop_columns.
  destruct (forallb (A:=value) _ _) eqn:Hall; [|done].
  exfalso. apply Hno.
  rewrite forallb_forall in Hall.
  assert (Hin : In (VStr (float:=float) k)
                   [VStr "type"; VStr "mapped_to"; VStr "reaction"]).
  { repeat (apply elem_of_cons in Hk as [->|Hk]; [simpl; tauto|]).
    by apply elem_of_nil in Hk. }
  apply Hall in Hin. by apply bool_decide_eq_true_1 in Hin.
Qed.

Lemma first_sentinel (inp : list string) :
  Forall (fun t => lower t ≠ "done") inp
  ∨ ∃ toks d rest, inp = toks ++ d :: rest
                   ∧ Forall (fun t => lower t ≠ "done") toks
                   ∧ lower d = "done".
Proof.
  induction inp as [|t inp IH]; [by left|].
  destruct (decide (lower t = "done")) as [Ht|Ht].
  - right. by exists [], t, inp.
  - destruct IH as [IH|(toks & d & rest & -> & Hno & Hd)].
    + left. by constructor.
    + right. exists (t :: toks), d, rest. split; [done|]. split; [|done].
      by constructor.
Qed.

Lemma select_species_lines (toks : list string) (d : string) (rest : list string)
    (w : world) :
  Forall (fun t => lower t ≠ "done") toks →
  lower d = "done" →
  ∃ sel w', select_species (toks ++ d :: rest) w
            = Ok (empty_frame (VStr "name" :: index (get_species (model w))),
                  sel, rest, w')
            ∧ model w' = model w.
Proof.
  intros Hno Hd. unfold select_species. simpl.
  destruct (cli_initial_conc_tokens (get_species (model w))
              (VStr "name" :: index (get_species (model w))) toks d rest
              (call_get_species w).2 Hno Hd) as (w' & Hrun & Hm & _).
  simpl in Hrun. rewrite Hrun. simpl. eauto.
Qed.

Lemma rates_loop_same_model (rates : list value) (inp : list string) :
  (∀ w1 w2 : world,
     model w1 = model w2 →
     same_outcome (rates_loop parse_float rates inp w1)
                  (rates_loop parse_float rates inp w2))
  ∧ (∀ name (w1 w2 : world),
       model w1 = model w2 →
       same_outcome (numeric_entry parse_float rates name inp w1)
                    (numeric_entry parse_float rates name inp w2)).
Proof.
  induction inp as [|t inp [IHo IHi]]; [by split|].
  split.
  - intros w1 w2 Hm. rewrite !rates_loop_cons.
    destruct (decide _); [done|].
    destruct (decide _); [by apply IHo|by apply IHi].
  - intros name w1 w2 Hm. rewrite !numeric_entry_cons.
    destruct (parse_float t) as [x|]; [|by apply IHi].
    apply IHo. simpl. by rewrite Hm.
Qed.

Lemma cli_set_rates_same_model (inp : list string) (w1 w2 : world) :
  model w1 = model w2 →
  same_outcome (cli_set_rates parse_float inp w1) (cli_set_rates parse_float inp w2).
Proof.
  intros Hm. unfold cli_set_rates. simpl. rewrite Hm.
  match goal with
  | |- same_outcome (mbind _ (rates_loop _ _ _ ?a)) (mbind _ (rates_loop _ _ _ ?b)) =>
      pose proof (proj1 (rates_loop_same_model
                           (index (get_reaction_parameters (model w2))) inp) a b eq_refl)
        as Hsame
  end.
  destruct (rates_loop _ _ _ _) as [[i1 v1]|e1];
    destruct (rates_loop _ _ _ _) as [[i2 v2]|e2]; simpl in *; try done;
    destruct Hsame as [-> Hv]; by split.
Qed.

Lemma assemble_same_model (block : DataFrame) (w1 w2 : world) :
  model w1 = model w2 →
  same_outcome (assemble block w1) (assemble block w2).
Proof.
  intros Hm. unfold assemble, handle_parameters_df. simpl. rewrite Hm.
  destruct (move_to_front _ _); simpl; [|done].
  destruct (getitem_list _ _); simpl; [|done].
  destruct (drop_columns _ _); simpl; [|done].
  destruct (columns_from_first_row _); simpl; [|done].
  destruct (concat_axis1 _ _); simpl; done.
Qed.

(** X11: for the parameter frame [basico] returns, [handle_parameters_df]
    returns a frame of exactly one row, labelled [0], with one column per
    parameter, named by it and in the order of the frame, holding its value
    (no column and an empty row when the model has no parameter); it makes
    one [get_reaction_parameters] call, prints nothing and leaves the model
    as it was. *)
Theorem X11_handle_parameters_df_one_row (w : world) :
  basico_parameters (get_reaction_parameters (model w)) →
  handle_parameters_df w
  = Ok (mkDF (parameter_names (model w)) [(VInt 0, parameter_values (model w))],
        World (model w) (calls w ++ [CallGetReactionParameters]) (stdout w))
  ∧ length (parameter_values (model w)) = length (parameter_names (model w)).
Proof.
  intros Hshape. split; [by rewrite handle_parameters_df_shape|].
  unfold parameter_values, parameter_names, index. by rewrite !length_map.
Qed.

(** X12: when the parameter frame lacks one of the columns [type],
    [mapped_to] and [reaction] (and has no column [rates] of its own),
    [handle_parameters_df] raises [KeyError] at its [drop], and line 226
    raises it too, whatever the row block. *)
Theorem X12_handle_parameters_df_missing_column (w : world) (k : string)
    (block : DataFrame) :
  VStr "rates" ∉ columns (get_reaction_parameters (model w)) →
  k ∈ ["type"; "mapped_to"; "reaction"] →
  VStr k ∉ columns (get_reaction_parameters (model w)) →
  handle_parameters_df w = Raise KeyError
  ∧ assemble block w = Raise KeyError.
Proof.
  intros Hrates Hk Hmiss.
  pose proof (handle_parameters_df_missing_column w k Hrates Hk Hmiss) as Hh.
  split; [done|]. unfold assemble. by rewrite Hh.
Qed.

(** X13: the script needs two sentinels: when fewer than two lines of the
    input lower-case to [done], it raises [EOFError], in the species loop or
    in the parameter loop, and no table is made. *)
Theorem X13_main_needs_two_sentinels (concs : list conc) (inp : list string)
    (w : world) :
  (length (filter (fun t => lower t = "done") inp) < 2)%nat →
  main parse_float concs inp w = Raise EOFError.
Proof.
  intros Hcount.
  destruct (first_sentinel inp) as [Hno|(toks & d & rest & -> & Hno & Hd)].
  - unfold main, select_species, cli_initial_conc. simpl.
    by rewrite species_loop_eof.
  - assert (Hrest : Forall (fun t => lower t ≠ "done") rest).
    { destruct (first_sentinel rest) as [Hr|(t2 & d2 & r2 & -> & _ & Hd2)]; [done|].
      exfalso. revert Hcount.
      rewrite filter_app, filter_cons_True, filter_app, filter_cons_True by done.
      rewrite !length_app. simpl. rewrite !length_app. simpl. lia. }
    destruct (select_species_lines toks d rest w Hno Hd) as (sel & w' & Hsel & _).
    unfold main. rewrite Hsel. cbn [mbind res_bind].
    unfold cli_set_rates. simpl.
    by rewrite (proj1 (rates_loop_eof parse_float _ rest Hrest)).
Qed.

(** X14: neither the species typed nor the concentration sequence reaches
    the table: two runs from the same state whose inputs agree after the
    first sentinel end alike, with the same exception, or with the same
    table, the same input left and the same model. *)
Theorem X14_main_ignores_selection (concs1 concs2 : list conc)
    (toks1 toks2 : list string) (d1 d2 : string) (rest : list string) (w : world) :
  Forall (fun t => lower t ≠ "done") toks1 →
  Forall (fun t => lower t ≠ "done") toks2 →
  lower d1 = "done" →
  lower d2 = "done" →
  same_outcome (main parse_float concs1 (toks1 ++ d1 :: rest) w)
               (main parse_float concs2 (toks2 ++ d2 :: rest) w).
Proof.
  intros Hno1 Hno2 Hd1 Hd2.
  destruct (select_species_lines toks1 d1 rest w Hno1 Hd1) as (sel1 & w1 & Hs1 & Hm1).
  destruct (select_species_lines toks2 d2 rest w Hno2 Hd2) as (sel2 & w2 & Hs2 & Hm2).
  unfold main. rewrite Hs1, Hs2. cbn [mbind res_bind].
  pose proof (cli_set_rates_same_model rest w1 w2) as Hrates.
  rewrite Hm1, Hm2 in Hrates. specialize (Hrates eq_refl).
  destruct (cli_set_rates parse_float rest w1) as [[i1 v1]|e1];
    destruct (cli_set_rates parse_float rest w2) as [[i2 v2]|e2];
    simpl in Hrates; try done.
  destruct Hrates as [-> Hv]. cbn [mbind res_bind].
  pose proof (assemble_same_model
                (empty_frame (VStr "name" :: index (get_species (model w))))
                v1 v2 Hv) as Has.
  destruct (assemble _ v1) as [[t1 u1]|e1];
    destruct (assemble _ v2) as [[t2 u2]|e2]; simpl in Has; try done.
  destruct Has as [-> Hu]. simpl. by split.
Qed.
End ProgramExtras.

(** ** Reading the sheet *)

Section IngestionFacts.
Context {float : Type} `{!EqDecision float}.
Context {M : Type} `{!Facade float M}.
Variable parse_float : string → option float.
Variable format8 : float → string.
Variable float_of_int : Z → float.
Variable strip : string → string.

Abbreviation value := (value float).
Abbreviation DataFrame := (DataFrame float).
Abbreviation world := (world float M).
Abbreviation sheet_cell := (sheet_cell float).
Abbreviation excel_frame := (excel_frame float).
Abbreviation format_cell := (format_cell format8 float_of_int).
Abbreviation float_of_formatted := (float_of_formatted parse_float).
Abbreviation floats_of := (floats_of parse_float).
Abbreviation read_excel_file :=
  (read_excel_file parse_float format8 float_of_int strip).

Lemma floats_of_inr (l : list formatted) :
  ∀ xs : list float,
    floats_of l = inr xs
    ↔ Forall2 (fun v x => float_of_formatted v = inr x) l xs.
Proof.
  induction l as [|v l IH]; intros xs; simpl.
  - split; [intros [= <-]; constructor|by intros ->%Forall2_nil_inv_l].
  - split.
    + destruct (float_of_formatted v) as [e|x] eqn:Hv; [done|].
      destruct (floats_of l) as [e|ys] eqn:Hl; [done|].
      intros [= <-]. constructor; [done|]. by apply IH.
    + intros (x & ys & Hv & Hl & ->)%Forall2_cons_inv_l.
      rewrite Hv. apply IH in Hl. by rewrite Hl.
Qed.

Lemma floats_of_inl (pre : list formatted) :
  ∀ (bad : formatted) (post : list formatted) (e : sheet_error),
    Forall (fun v => ∃ x, float_of_formatted v = inr x) pre →
    float_of_formatted bad = inl e →
    floats_of (pre ++ bad :: post) = inl e.
Proof.
  induction pre as [|v pre IH]; intros bad post e Hpre Hbad; simpl.
  - by rewrite Hbad.
  - apply Forall_cons in Hpre as [[x Hv] Hpre]. rewrite Hv.
    by rewrite (IH bad post e).
Qed.

(** X15: [read_excel_file] returns exactly when the column has a first cell
    that is a text or a number and every later cell converts; it then
    returns the first cell stripped as the label (a numeric label in its
    eight-decimal form) and one float per later cell, in order: a text cell
    parsed as it is, a numeric cell formatted to eight decimals and parsed
    back.  The label cell is never among the values. *)
Theorem X15_read_excel_file_returns (df_excel : excel_frame)
    (values : list float) (label : string) :
  read_excel_file df_excel = inr (values, label)
  ↔ ∃ (c0 : sheet_cell) (rest : list sheet_cell) (s : string),
      df_excel = Some (c0 :: rest)
      ∧ format_cell c0 = FStr s
      ∧ label = strip s
      ∧ Forall2 (fun c x => float_of_formatted (format_cell c) = inr x)
                rest values.
Proof.
  unfold read_excel_file. destruct df_excel as [[|c0 rest]|]; simpl.
  - split; [done|]. by intros (? & ? & ? & [=] & _).
  - split.
    + destruct (format_cell c0) as [s|] eqn:Hc0; [|done].
      destruct (floats_of _) as [e|xs] eqn:Hfl; [done|].
      intros [= <- <-]. exists c0, rest, s. repeat split; try done.
      apply floats_of_inr in Hfl. by apply Forall2_fmap_l in Hfl.
    + intros (c & r & s & [= <- <-] & Hc0 & -> & Hall).
      rewrite Hc0.
      assert (Hfl : floats_of (map format_cell rest) = inr values).
      { apply floats_of_inr. by apply Forall2_fmap_l. }
      by rewrite Hfl.
  - split; [done|]. by intros (? & ? & ? & [=] & _).
Qed.

(** X16: how [read_excel_file] fails.  A frame without the column [0], as
    read from a sheet without any cell, raises [KeyError] at line 19; a
    first cell that is neither text nor number raises [AttributeError] at
    its [strip], whatever follows; otherwise the first later cell that does
    not convert decides, whatever stands behind it: a text that is not a
    float raises [ValueError], another object raises [TypeError].  No value
    is skipped: one bad cell loses the whole column. *)
Theorem X16_read_excel_file_fails (c0 : sheet_cell) (s : string)
    (pre : list sheet_cell) (bad : sheet_cell) (post : list sheet_cell) :
  Forall (fun c => ∃ x, float_of_formatted (format_cell c) = inr x) pre →
  (∀ x, float_of_formatted (format_cell bad) ≠ inr x) →
  read_excel_file None = inl SheetKeyError
  ∧ read_excel_file (Some (SOther :: pre ++ bad :: post))
    = inl SheetAttributeError
  ∧ (format_cell c0 = FStr s →
     read_excel_file (Some (c0 :: pre ++ bad :: post))
     = inl (match bad with SOther => SheetTypeError | _ => SheetValueError end)).
Proof.
  intros Hpre Hbad. split; [done|]. split; [done|]. intros Hc0.
  unfold read_excel_file. cbn [column_0 map]. rewrite Hc0, map_app. cbn [map].
  rewrite (floats_of_inl (map format_cell pre) (format_cell bad) _
             (match bad with SOther => SheetTypeError | _ => SheetValueError end));
    [done| |].
  - by apply Forall_fmap.
  - destruct bad as [x|n|t|]; simpl in *;
      try (destruct (parse_float _) as [y|] eqn:Hy; [by destruct (Hbad y)|done]);
      done.
Qed.

Lemma sweep_calls_floats (values : list float) (sel : list string) :
  sweep_calls parse_float (map CFloat values) sel
  = concat (map (fun x => map (fun spec => CallSetSpecies spec x) sel
                          ++ [CallRunSteadystate; CallGetSpecies]) values).
Proof.
  induction values as [|x values IH]; [done|].
  simpl. rewrite IH. by rewrite <- app_assoc.
Qed.

Lemma analyze_floats_stdout (values : list float) (sel : list string) :
  ∀ (df : DataFrame) (w : world) (t : DataFrame) (w' : world),
    analyze_steady_states parse_float (map CFloat values) sel df w = Ok (t, w') →
    ∃ printed : list (message float),
      stdout w' = stdout w ++ printed
      ∧ Forall (fun msg => ∃ x, msg = MsgSkipRead (CFloat x)) printed.
Proof.
  induction values as [|x values IH]; intros df w t w'.
  { intros [= <- <-]. exists []. by rewrite app_nil_r. }
  cbn [map].
  destruct (iteration_cases parse_float (CFloat x) sel df w)
    as [Hc|y Hc Hr|y data df' Hc Hr Ha|y data Hc Hr Ha].
  - done.
  - rewrite (analyze_skip_read parse_float _ y) by done. intros Hrun.
    apply IH in Hrun as (printed & Hout & Hall).
    exists (MsgSkipRead (CFloat x) :: printed). split.
    + rewrite Hout. cbn [print stdout].
      rewrite (proj2 (proj2 (solved_effects sel y w))).
      by rewrite <- app_assoc.
    + constructor; [by exists x|done].
  - rewrite (analyze_success parse_float _ y _ sel df data df') by done.
    intros Hrun. apply IH in Hrun as (printed & Hout & Hall).
    exists printed. split; [|done].
    by rewrite Hout, (proj2 (proj2 (solved_effects sel y w))).
  - by rewrite (analyze_append_raises parse_float _ y _ sel df data InvalidIndexError).
Qed.

(** X17: the values [read_excel_file] returns are floats, so a sweep over
    them never takes the conversion skip of [set_init_conc]: a sweep that
    returns has solved once for every cell below the label, in the order of
    the sheet, each time after setting every selected species to that
    cell's value, and whatever it printed reports a failed read of the
    solved species, never a value that could not be converted. *)
Theorem X17_sheet_values_are_all_solved (df_excel : excel_frame)
    (values : list float) (label : string) (sel : list string)
    (df : DataFrame) (w : world) (t : DataFrame) (w' : world) :
  read_excel_file df_excel = inr (values, label) →
  analyze_steady_states parse_float (map CFloat values) sel df w = Ok (t, w') →
  (∃ cells : list sheet_cell,
     df_excel = Some cells ∧ length cells = S (length values))
  ∧ calls w'
    = calls w
      ++ concat (map (fun x => map (fun spec => CallSetSpecies spec x) sel
                               ++ [CallRunSteadystate; CallGetSpecies]) values)
  ∧ ∃ printed : list (message float),
      stdout w' = stdout w ++ printed
      ∧ Forall (fun msg => ∃ x, msg = MsgSkipRead (CFloat x)) printed.
Proof.
  intros Hread Hrun. split; [|split].
  - unfold read_excel_file in Hread.
    destruct df_excel as [[|c0 rest]|]; [done| |done].
    cbn [column_0 map] in Hread. destruct (format_cell c0) as [s|]; [|done].
    destruct (floats_of _) as [e|xs] eqn:Hfl; [done|].
    injection Hread as <- <-. apply floats_of_inr, Forall2_length in Hfl.
    rewrite length_map in Hfl. exists (c0 :: rest). split; [done|].
    simpl. by rewrite Hfl.
  - rewrite <- sweep_calls_floats. by eapply analyze_calls.
  - by eapply analyze_floats_stdout.
Qed.

End IngestionFacts.

(** ** Further runs on the concrete models *)

Ltac distinct_labels :=
  repeat (apply NoDup_cons; split;
          [intros Hin;
           repeat (apply elem_of_cons in Hin as [Heq|Hin]; [discriminate Heq|]);
           by apply elem_of_nil in Hin|]);
  apply NoDup_nil_2.

Ltac none_is_done :=
  repeat (apply Forall_cons; split; [discriminate|]); apply Forall_nil_2.

(** X1: two names of the model with a line that is none between them, then
    the sentinel in mixed case. *)
Lemma X1_witness :
  ∃ w' : world Z Toy.toy,
    cli_initial_conc (get_species Toy.model0) [VStr "name"; VStr "A"; VStr "B"]
      ["B"; "x"; "A"; "Done"; "k1"] Toy.world0
    = Ok (["B"; "A"], ["k1"], w')
    ∧ length (stdout w') = 7%nat.
Proof.
  destruct (X1_cli_initial_conc_returns_accepted_lines
              (get_species Toy.model0) [VStr "name"; VStr "A"; VStr "B"]
              ["B"; "x"; "A"] "Done" ["k1"] Toy.world0) as [Hrun _].
  - none_is_done.
  - reflexivity.
  - eexists. split; [exact Hrun|reflexivity].
Defined.

(** X2: two names and no sentinel. *)
Lemma X2_witness :
  cli_initial_conc (get_species Toy.model0) [VStr "name"; VStr "A"; VStr "B"]
    ["A"; "B"] Toy.world0
  = Raise EOFError.
Proof.
  apply (X2_cli_initial_conc_without_sentinel (get_species Toy.model0)
           [VStr "name"; VStr "A"; VStr "B"] ["A"; "B"] Toy.world0).
  none_is_done.
Defined.

(** X3: a species, the label [name] and a line that is neither. *)
Lemma X3_witness :
  ∃ w' : world Z Toy.toy,
    select_species ["A"; "name"; "k1"; "done"; "k1"] Toy.world0
    = Ok (empty_frame [VStr "name"; VStr "A"; VStr "B"], ["A"; "name"], ["k1"], w')
    ∧ model w' = Toy.model0
    ∧ calls w' = [CallGetSpecies].
Proof.
  eexists. split; [vm_compute; reflexivity|].
  edestruct (X3_select_species_result (float:=Z) (M:=Toy.toy)
               ["A"; "name"; "k1"; "done"; "k1"] Toy.world0)
    as (_ & _ & Hm & Hcalls & _); [vm_compute; reflexivity|].
  split; [exact Hm|exact Hcalls].
Defined.

(** X4: one override, one unknown name. *)
Lemma X4_witness :
  ∃ (w' : world Z Toy.toy) (sets : list (call Z)),
    cli_set_rates Toy.parse_float ["k1"; "9"; "zz"; "done"] Toy.world0
    = Ok ([], w')
    ∧ calls w' = [CallGetReactionParameters] ++ sets ++ [CallGetReactionParameters]
    ∧ Forall (override_from Toy.parse_float [VStr "k1"; VStr "k2"]
                ["k1"; "9"; "zz"; "done"]) sets.
Proof.
  eexists.
  edestruct (X4_cli_set_rates_overrides_listed_names Toy.parse_float
               ["k1"; "9"; "zz"; "done"] Toy.world0) as (sets & Hcalls & Hall);
    [vm_compute; reflexivity|].
  exists sets. split; [reflexivity|]. split; [exact Hcalls|exact Hall].
Defined.

(** X5: a species name and another unknown line, then the sentinel. *)
Lemma X5_witness :
  ∃ w' : world Z Toy.toy,
    cli_set_rates Toy.parse_float ["zz"; "A"; "DONE"] Toy.world0 = Ok ([], w')
    ∧ model w' = Toy.model0
    ∧ calls w' = [CallGetReactionParameters; CallGetReactionParameters].
Proof.
  destruct (X5_cli_set_rates_rejects_unknown_names Toy.parse_float
              ["zz"; "A"] "DONE" [] Toy.world0)
    as (w' & Hrun & Hm & Hcalls & _).
  - repeat (apply Forall_cons; split;
            [split; [discriminate|];
             intros Hin;
             repeat (apply elem_of_cons in Hin as [Heq|Hin]; [discriminate Heq|]);
             by apply elem_of_nil in Hin|]).
    apply Forall_nil_2.
  - reflexivity.
  - exists w'. split; [exact Hrun|]. split; [exact Hm|exact Hcalls].
Defined.

(** X6: a selection that lists [A] twice and a value given as a string. *)
Lemma X6_witness :
  ∃ w' : world Z Toy.toy,
    set_init_conc Toy.parse_float ["A"; "A"] (CStr "4") Toy.world0 = Ok w'
    ∧ calls w' = [CallSetSpecies "A" 4%Z; CallSetSpecies "A" 4%Z]
    ∧ stdout w' = [].
Proof.
  destruct (X6_set_init_conc_sets_each_entry Toy.parse_float ["A"; "A"]
              (CStr "4") 4%Z Toy.world0) as (w' & Hrun & Hcalls & _ & Hout).
  - reflexivity.
  - exists w'. split; [exact Hrun|]. split; [exact Hcalls|exact Hout].
Defined.

(** X7: a value that converts and one that does not. *)
Lemma X7_witness :
  ∃ (t : DataFrame Z) (w' : world Z Toy.toy),
    analyze_steady_states Toy.parse_float [CFloat 3%Z; CStr "x"] ["A"]
      (empty_frame [VStr "name"; VStr "A"; VStr "B"]) Toy.world0
    = Ok (t, w')
    ∧ calls w' = [CallSetSpecies "A" 3%Z; CallRunSteadystate; CallGetSpecies].
Proof.
  eexists _, _. split; [vm_compute; reflexivity|].
  edestruct (X7_analyze_steady_states_calls Toy.parse_float
               [CFloat 3%Z; CStr "x"] ["A"]
               (empty_frame [VStr "name"; VStr "A"; VStr "B"]) Toy.world0)
    as (Hcalls & _); [vm_compute; reflexivity|].
  exact Hcalls.
Defined.

(** X8: two values that both yield a row, one given as a string. *)
Lemma X8_witness :
  ∃ (t : DataFrame Z) (w' : world Z Toy.toy),
    analyze_steady_states Toy.parse_float [CFloat 3%Z; CStr "4"] ["A"]
      (empty_frame [VStr "name"; VStr "A"; VStr "B"]) Toy.world0
    = Ok (t, w')
    ∧ length (rows t) = 2%nat
    ∧ column_values (VStr "IP_tot") t = [VFloat 3%Z; VStr "4"].
Proof.
  destruct (X8_analyze_steady_states_keeps_input_order Toy.parse_float
              [VStr "A"; VStr "B"])
    with (concs := [CFloat 3%Z; CStr "4"]) (sel := ["A"]) (w := Toy.world0)
    as (t & w' & Hrun & Hrows & Hcol & _).
  - distinct_labels.
  - apply toy_species_columns_distinct.
  - apply toy_set_species_keeps_index.
  - apply toy_run_steadystate_keeps_index.
  - reflexivity.
  - reflexivity.
  - exists t, w'. split; [exact Hrun|]. split; [exact Hrows|exact Hcol].
Defined.

(** X9: a value that leaves no usable result between two that yield a
    row. *)
Lemma X9_witness :
  ∃ w' : world Z Toy.toy,
    analyze_steady_states Toy.parse_float
      [CFloat 3%Z; CFloat (-1)%Z; CStr "4"] ["A"]
      (empty_frame [VStr "name"; VStr "A"; VStr "B"]) Toy.world0
    = Ok (mkDF [VStr "name"; VStr "A"; VStr "B"; VStr "IP_tot"]
            [(VStr "concentration", [VNaN; VFloat 3%Z; VFloat 2%Z; VFloat 3%Z]);
             (VStr "concentration", [VNaN; VFloat 4%Z; VFloat 2%Z; VStr "4"])],
          w').
Proof.
  destruct (X9_analyze_steady_states_table Toy.parse_float
              [VStr "A"; VStr "B"])
    with (concs := [CFloat 3%Z; CFloat (-1)%Z; CStr "4"]) (sel := ["A"])
         (w := Toy.world0)
    as (w' & Hrun & _).
  - distinct_labels.
  - apply toy_species_columns_distinct.
  - apply toy_set_species_keeps_index.
  - apply toy_run_steadystate_keeps_index.
  - reflexivity.
  - exists w'. exact Hrun.
Defined.

(** X10: a sweep of two values that both yield a row. *)
Lemma X10_witness :
  ∃ (block : DataFrame Z) (w' : world Z Toy.toy),
    analyze_steady_states Toy.parse_float [CFloat 3%Z; CFloat 4%Z] ["A"]
      (empty_frame [VStr "name"; VStr "A"; VStr "B"]) Toy.world0
    = Ok (block, w')
    ∧ length (rows block) = 2%nat
    ∧ assemble block w' = Raise InvalidIndexError.
Proof.
  eexists _, _. split; [vm_compute; reflexivity|]. split; [reflexivity|].
  edestruct (X10_assemble_after_sweep Toy.parse_float [VStr "A"; VStr "B"])
    with (concs := [CFloat 3%Z; CFloat 4%Z]) (sel := ["A"]) (w := Toy.world0)
    as (_ & Hraise).
  - distinct_labels.
  - apply toy_species_columns_distinct.
  - apply toy_set_species_keeps_index.
  - apply toy_run_steadystate_keeps_index.
  - reflexivity.
  - vm_compute; reflexivity.
  - apply toy_basico_parameters.
  - apply Hraise. simpl. lia.
Defined.

(** X11: the two parameters of the concrete model. *)
Lemma X11_witness :
  handle_parameters_df Toy.world0
  = Ok (mkDF [VStr "k1"; VStr "k2"] [(VInt 0, [VFloat 5%Z; VFloat 7%Z])],
        World Toy.model0 [CallGetReactionParameters] []).
Proof.
  destruct (X11_handle_parameters_df_one_row Toy.world0) as [Hrun _].
  - apply toy_basico_parameters.
  - exact Hrun.
Defined.

(** X12: the bare model has no [type] column. *)
Lemma X12_witness :
  handle_parameters_df (Facade0 := Bare.bare_facade) Bare.world0 = Raise KeyError
  ∧ assemble (Facade0 := Bare.bare_facade)
      (empty_frame [VStr "name"; VStr "A"]) Bare.world0
    = Raise KeyError.
Proof.
  apply (X12_handle_parameters_df_missing_column (Facade0 := Bare.bare_facade)
           Bare.world0 "type" (empty_frame [VStr "name"; VStr "A"])).
  - intros Hin. apply list_elem_of_singleton in Hin. discriminate Hin.
  - apply elem_of_cons. by left.
  - intros Hin. apply list_elem_of_singleton in Hin. discriminate Hin.
Defined.

(** X13: one sentinel only, the parameter loop runs out of input. *)
Lemma X13_witness :
  main Toy.parse_float [CFloat 1%Z] ["A"; "done"; "k1"; "9"] Toy.world0
  = Raise EOFError.
Proof.
  apply (X13_main_needs_two_sentinels Toy.parse_float [CFloat 1%Z]
           ["A"; "done"; "k1"; "9"] Toy.world0).
  vm_compute. lia.
Defined.

(** X14: two runs that differ in the values and in the species typed. *)
Lemma X14_witness :
  same_outcome
    (main Toy.parse_float [] ["A"; "done"; "k1"; "9"; "done"] Toy.world0)
    (main Toy.parse_float [CFloat 1%Z] ["B"; "B"; "DONE"; "k1"; "9"; "done"]
       Toy.world0).
Proof.
  apply (X14_main_ignores_selection Toy.parse_float [] [CFloat 1%Z]
           ["A"] ["B"; "B"] "done" "DONE" ["k1"; "9"; "done"] Toy.world0).
  - none_is_done.
  - none_is_done.
  - reflexivity.
  - reflexivity.
Defined.

(** X16: a label, a number, then a text that is no float. *)
Lemma X16_witness :
  ToySheet.read (Some [SStr " IP"; SInt 3%Z; SStr "abc"; SInt 4%Z])
  = inl SheetValueError.
Proof.
  destruct (X16_read_excel_file_fails Toy.parse_float ToySheet.format8
              ToySheet.float_of_int ToySheet.strip
              (SStr " IP") " IP" [SInt 3%Z] (SStr "abc") [SInt 4%Z])
    as (_ & _ & Hrun).
  - apply Forall_cons. split; [by exists 3%Z|apply Forall_nil_2].
  - intros x. discriminate.
  - apply Hrun. reflexivity.
Defined.

(** X17: a sheet with a label and two numbers. *)
Lemma X17_witness :
  ∃ (t : DataFrame Z) (w' : world Z Toy.toy),
    ToySheet.read (Some [SStr " IP"; SInt 3%Z; SFloat 4%Z])
    = inr ([3%Z; 4%Z], "IP")
    ∧ analyze_steady_states Toy.parse_float (map CFloat [3%Z; 4%Z]) ["A"]
        (empty_frame [VStr "name"; VStr "A"; VStr "B"]) Toy.world0
      = Ok (t, w')
    ∧ calls w' = [CallSetSpecies "A" 3%Z; CallRunSteadystate; CallGetSpecies;
                  CallSetSpecies "A" 4%Z; CallRunSteadystate; CallGetSpecies].
Proof.
  eexists _, _. split; [reflexivity|]. split; [vm_compute; reflexivity|].
  edestruct (X17_sheet_values_are_all_solved Toy.parse_float ToySheet.format8
               ToySheet.float_of_int ToySheet.strip
               (Some [SStr " IP"; SInt 3%Z; SFloat 4%Z]) [3%Z; 4%Z] "IP" ["A"]
               (empty_frame [VStr "name"; VStr "A"; VStr "B"]) Toy.world0)
    as (_ & Hcalls & _); [reflexivity|vm_compute; reflexivity|].
  exact Hcalls.
Defined.
